(** * Digital wedding card generator: the viewer-side protocol

    A shallow embedding of the browser code of the repository
    ([frontend/js/utils.js], [frontend/js/card-viewer.js]) together with the
    card access protocol of the backend, and the properties the
    specification states about them.

    JavaScript strings are sequences of UTF-16 code units; [length],
    [trim], [replace] and the regular expressions of the source all work
    on code units, so a string is a [list N] here. *)

From Stdlib Require Import NArith List Ascii String Bool Arith Lia.
From stdpp Require Import base gmap list.
Import ListNotations.

Set Default Proof Using "Type".

(* ===================================================================== *)
(** * Part I: the embedding *)
(* ===================================================================== *)

(** ** JavaScript strings *)

Module JsString.

Definition code_unit := N.
Definition jsstring := list code_unit.

Local Open Scope N_scope.

(** ASCII literals of the source, as code units. *)
Definition cu (a : ascii) : code_unit := N_of_ascii a.
Definition str (s : string) : jsstring := List.map cu (list_ascii_of_string s).

(** [!s] on a string: only the empty string is falsy. *)
Definition isEmpty (s : jsstring) : bool :=
  match s with [] => true | _ :: _ => false end.

Definition truthy (s : jsstring) : bool := negb (isEmpty s).

(** Truthiness of a value that is a string or [null]. *)
Definition truthy_opt (o : option jsstring) : bool :=
  match o with Some s => truthy s | None => false end.

Definition in_range (lo hi c : code_unit) : bool :=
  (lo <=? c)%N && (c <=? hi)%N.

(** WhiteSpace and LineTerminator of ECMA-262, the code units
    [String.prototype.trim] strips. *)
Definition is_js_whitespace (c : code_unit) : bool :=
  in_range 9 13 c          (* TAB LF VT FF CR *)
  || (c =? 32)%N           (* SPACE *)
  || (c =? 160)%N          (* NBSP *)
  || (c =? 5760)%N         (* U+1680 *)
  || in_range 8192 8202 c  (* U+2000 .. U+200A *)
  || (c =? 8232)%N || (c =? 8233)%N   (* LS PS *)
  || (c =? 8239)%N         (* U+202F *)
  || (c =? 8287)%N         (* U+205F *)
  || (c =? 12288)%N        (* U+3000 *)
  || (c =? 65279)%N.       (* U+FEFF *)

Fixpoint trimStart (s : jsstring) : jsstring :=
  match s with
  | [] => []
  | c :: s' => if is_js_whitespace c then trimStart s' else s
  end.

Definition trimEnd (s : jsstring) : jsstring := rev (trimStart (rev s)).

Definition trim (s : jsstring) : jsstring := trimEnd (trimStart s).

(** [s.startsWith(p)]. *)
Fixpoint starts_with (p s : jsstring) : bool :=
  match p, s with
  | [], _ => true
  | _ :: _, [] => false
  | a :: p', b :: s' => (a =? b)%N && starts_with p' s'
  end.

(** [s.endsWith(p)]. *)
Definition endsWith (s p : jsstring) : bool := starts_with (rev p) (rev s).

(** [s.includes(p)]: [p] occurs in [s] as a contiguous substring. *)
Fixpoint includes (s p : jsstring) : bool :=
  starts_with p s ||
  match s with
  | [] => false
  | _ :: s' => includes s' p
  end.

Definition eqb (a b : jsstring) : bool :=
  starts_with a b && (length a =? length b)%nat.

(** UTF-16 well-formedness: every surrogate is half of a pair.
    [encodeURIComponent] throws a [URIError] on any other string. *)
Definition is_high_surrogate (c : code_unit) : bool := in_range 55296 56319 c.
Definition is_low_surrogate (c : code_unit) : bool := in_range 56320 57343 c.

Fixpoint well_formed_utf16 (s : jsstring) : bool :=
  match s with
  | [] => true
  | c :: s' =>
      if is_high_surrogate c then
        match s' with
        | d :: s'' => is_low_surrogate d && well_formed_utf16 s''
        | [] => false
        end
      else if is_low_surrogate c then false
      else well_formed_utf16 s'
  end.

(** Decimal digits of a number, as template literals print it. *)
Definition digit (n : nat) : code_unit := 48 + N.of_nat n.

Fixpoint decimal_go (fuel n : nat) (acc : jsstring) : jsstring :=
  match fuel with
  | O => acc
  | S fuel' =>
      let acc' := digit (n mod 10)%nat :: acc in
      if (n / 10 =? 0)%nat then acc' else decimal_go fuel' (n / 10)%nat acc'
  end.

Definition decimal (n : nat) : jsstring := decimal_go (S n) n [].

End JsString.
Import JsString.

(** ** Regular expressions

    The patterns of the source use literals, character classes, sequencing
    and greedy repetition, with [^]/[$] anchors and the [i] flag.  Whether
    such a pattern matches does not depend on the order in which a
    backtracking engine tries the alternatives, so [test] is decided here by
    Brzozowski derivatives; [Lang] is the language semantics it is checked
    against in Part II. *)

Module Regex.

Inductive regex : Type :=
| Void                                  (* matches nothing *)
| Eps                                   (* the empty pattern *)
| Class (p : code_unit -> bool)         (* one code unit satisfying [p] *)
| Seq (r1 r2 : regex)
| Alt (r1 r2 : regex)
| Star (r : regex).

Definition Plus (r : regex) : regex := Seq r (Star r).

Inductive Lang : regex -> jsstring -> Prop :=
| L_eps : Lang Eps []
| L_class p c : p c = true -> Lang (Class p) [c]
| L_seq r1 r2 s1 s2 : Lang r1 s1 -> Lang r2 s2 -> Lang (Seq r1 r2) (s1 ++ s2)
| L_alt_l r1 r2 s : Lang r1 s -> Lang (Alt r1 r2) s
| L_alt_r r1 r2 s : Lang r2 s -> Lang (Alt r1 r2) s
| L_star_nil r : Lang (Star r) []
| L_star_app r s1 s2 : Lang r s1 -> Lang (Star r) s2 -> Lang (Star r) (s1 ++ s2).

Fixpoint nullable (r : regex) : bool :=
  match r with
  | Void => false
  | Eps => true
  | Class _ => false
  | Seq r1 r2 => nullable r1 && nullable r2
  | Alt r1 r2 => nullable r1 || nullable r2
  | Star _ => true
  end.

Fixpoint deriv (c : code_unit) (r : regex) : regex :=
  match r with
  | Void => Void
  | Eps => Void
  | Class p => if p c then Eps else Void
  | Seq r1 r2 =>
      if nullable r1
      then Alt (Seq (deriv c r1) r2) (deriv c r2)
      else Seq (deriv c r1) r2
  | Alt r1 r2 => Alt (deriv c r1) (deriv c r2)
  | Star r1 => Seq (deriv c r1) (Star r1)
  end.

(** The whole of [s] matches [r]. *)
Fixpoint accepts (r : regex) (s : jsstring) : bool :=
  match s with
  | [] => nullable r
  | c :: s' => accepts (deriv c r) s'
  end.

(** Some prefix of [s] matches [r]: a match starting at index 0. *)
Fixpoint match_here (r : regex) (s : jsstring) : bool :=
  nullable r ||
  match s with
  | [] => false
  | c :: s' => match_here (deriv c r) s'
  end.

(** A match of [body] starting at some index of [s], scanning left to
    right as [RegExpBuiltinExec] does from [lastIndex = 0]. *)
Fixpoint search (at_index : regex -> jsstring -> bool) (r : regex) (s : jsstring) : bool :=
  at_index r s ||
  match s with
  | [] => false
  | _ :: s' => search at_index r s'
  end.

(** A pattern of the source: its body and whether it is anchored by [^]
    and by [$] (no [m] flag anywhere in the source). *)
Record RegExp := mkRegExp {
  anchored_start : bool;
  anchored_end : bool;
  body : regex
}.

(** [RegExp.prototype.test]. *)
Definition test (re : RegExp) (s : jsstring) : bool :=
  let at_index := if anchored_end re then accepts else match_here in
  if anchored_start re then at_index (body re) s
  else search at_index (body re) s.

(** *** Building blocks for transcribing the patterns *)

Definition chr (a : ascii) : regex := Class (fun c => (c =? cu a)%N).

Fixpoint lit (s : jsstring) : regex :=
  match s with
  | [] => Eps
  | c :: s' => Seq (Class (fun x => (x =? c)%N)) (lit s')
  end.

(** Canonicalize of ECMA-262 for a pattern without the [u] flag, on the
    code units it can relate to an ASCII pattern character: a code unit
    of 128 or more never canonicalizes to an ASCII one, and an ASCII one
    is upper-cased. *)
Definition canonicalize (c : code_unit) : code_unit :=
  if in_range 97%N 122%N c then (c - 32)%N else c.

(** One pattern character under the [i] flag. *)
Definition chr_i (a : ascii) : regex :=
  Class (fun c => (canonicalize c =? canonicalize (cu a))%N).

Fixpoint lit_i (s : list ascii) : regex :=
  match s with
  | [] => Eps
  | a :: s' => Seq (chr_i a) (lit_i s')
  end.

(** [\w], with or without [i] when the [u] flag is absent. *)
Definition word_char (c : code_unit) : bool :=
  in_range 97%N 122%N c || in_range 65%N 90%N c || in_range 48%N 57%N c || (c =? 95)%N.

End Regex.

(** ** [String.prototype.replace] with a global literal pattern

    [s.replace(/lit/g, template)] where the pattern is a sequence of literal
    characters and [template] is a string, after [RegExp.prototype[@@replace]]
    of ECMA-262: the matches are collected from left to right, each search
    starting at [lastIndex], the end of the match before; then the result is
    put together from the text between the matches and
    [GetSubstitution(matched, s, position, template)] for each match. *)

Module Replace.

Definition dollar : code_unit := cu "$".

(** GetSubstitution of ECMA-262 for a pattern with no capture groups.
    [$$] gives [$], [$&] the match, [$`] the text before it and [$'] the
    text after it.  With no captures [$1]..[$99] and [$<] are not
    references: the same characters come out, as for any other use of [$]. *)
Fixpoint GetSubstitution (matched s : jsstring) (position : nat)
    (template : jsstring) : jsstring :=
  match template with
  | [] => []
  | c :: rest =>
      if (c =? dollar)%N then
        match rest with
        | [] => [c]
        | d :: rest' =>
            if (d =? cu "$")%N then
              dollar :: GetSubstitution matched s position rest'
            else if (d =? cu "&")%N then
              matched ++ GetSubstitution matched s position rest'
            else if (d =? cu "`")%N then
              firstn position s ++ GetSubstitution matched s position rest'
            else if (d =? cu "'")%N then
              skipn (position + length matched) s
                ++ GetSubstitution matched s position rest'
            else c :: GetSubstitution matched s position rest
        end
      else c :: GetSubstitution matched s position rest
  end.

(** [s.substring(from, to)] for [from <= to]. *)
Definition substring (s : jsstring) (from to : nat) : jsstring :=
  firstn (to - from) (skipn from s).

(** [RegExpBuiltinExec] for a literal pattern: the first index at or after
    [index] where the pattern matches; [rest] is the string from [index]
    on. *)
Fixpoint exec_literal (pat rest : jsstring) (index : nat) : option nat :=
  if starts_with pat rest then Some index
  else match rest with
       | [] => None
       | _ :: rest' => exec_literal pat rest' (S index)
       end.

(** The loop that collects the matches.  After a match [lastIndex] is its
    end, one further for an empty match; a string has at most
    [length s + 1] matches, which bounds the loop. *)
Fixpoint match_positions (fuel : nat) (pat s : jsstring) (lastIndex : nat) : list nat :=
  match fuel with
  | O => []
  | S fuel' =>
      match exec_literal pat (skipn lastIndex s) lastIndex with
      | None => []
      | Some position =>
          position :: match_positions fuel' pat s (position + Nat.max 1 (length pat))
      end
  end.

(** Putting the result together: [accumulatedResult] grows by the text
    from [nextSourcePosition] to the match and by its replacement. *)
Fixpoint accumulate (pat s template : jsstring) (results : list nat)
    (nextSourcePosition : nat) : jsstring :=
  match results with
  | [] => skipn nextSourcePosition s
  | position :: results' =>
      if nextSourcePosition <=? position then
        substring s nextSourcePosition position
          ++ GetSubstitution pat s position template
          ++ accumulate pat s template results' (position + length pat)
      else accumulate pat s template results' nextSourcePosition
  end.

(** [s.replace(/pat/g, template)] *)
Definition replace_global (pat s template : jsstring) : jsstring :=
  accumulate pat s template (match_positions (S (length s)) pat s 0) 0.

(** The same replacement as one pass over the string (Part II shows that
    the two agree): [rest] is [s] from index [position] on, and [skip]
    counts the code units of the current match still to be passed over. *)
Fixpoint replace_scan (pat template s : jsstring) (position skip : nat)
    (rest : jsstring) : jsstring :=
  match rest with
  | [] => []
  | c :: rest' =>
      match skip with
      | S k => replace_scan pat template s (S position) k rest'
      | O =>
          if starts_with pat rest then
            GetSubstitution pat s position template
              ++ replace_scan pat template s (S position) (length pat - 1) rest'
          else
            c :: replace_scan pat template s (S position) 0 rest'
      end
  end.

End Replace.

(** ** The browser: requests, responses and effects

    The asynchronous methods of the source talk to the network,
    [localStorage], [window.location] and the page.  A method is embedded
    as a finite tree of these effects ([Prog]); [exec] runs such a tree in
    a world that holds the browser state and the backend.  [console.*]
    calls have no effect on either and are left out. *)

Module Browser.

(** An error object: [error.name] and [error.message]. *)
Record JsError := mkError { err_name : jsstring; err_message : jsstring }.

(** [new Error(msg)] *)
Definition Error (msg : jsstring) : JsError := mkError (str "Error") msg.

(** A URL, by its parts: [`${origin}/${path.join('/')}?${key}=${encodeURIComponent(value)}`].
    The query holds the value before encoding, which is what the server
    reads back after decoding. *)
Record Url := mkUrl {
  url_origin : jsstring;
  url_path : list jsstring;
  url_query : option (jsstring * jsstring)
}.

Record Request := mkRequest {
  req_url : Url;
  req_method : jsstring;
  req_headers : gmap jsstring jsstring;
  req_body : option jsstring
}.

(** The card payload of [GET /cards/{id}]. *)
Record CardData := mkCardData {
  message : jsstring;
  ai_voice_path : option jsstring
}.

(** A parsed JSON body, at the shapes the API produces. *)
Inductive Json : Type :=
| JsonNull
| JsonError (detail msg : option jsstring)   (* {detail, message} of an error *)
| JsonCard (card : CardData)                 (* {message, ai_voice_path} *)
| JsonOther.                                 (* an object or array with none of these *)

(** [body = None]: the body is not JSON and [response.json()] rejects. *)
Record Response := mkResponse {
  status : N;
  statusText : jsstring;
  body : option Json
}.

(** [response.ok] *)
Definition ok (r : Response) : bool :=
  (200 <=? status r)%N && (status r <=? 299)%N.

(** What [await fetch(...)] comes back with. *)
Inductive FetchResult : Type :=
| Rejected (e : JsError)
| Responded (r : Response).

Inductive NotificationKind := ErrorNotification | WarningNotification.

(** The label of the audio section. *)
Inductive AudioLabel : Type :=
| LabelPersonalVoiceMessage   (* "Personal Voice Message:" *)
| LabelAvailableSoon          (* "Voice Message: Audio message will be available soon!" *)
| LabelLoading                (* "Personal Voice Message: Loading..." *)
| LabelUnavailable.           (* "Voice Message: Audio temporarily unavailable" *)

(** The writes of card-viewer.js to the page of view-card.html. *)
Inductive DomOp : Type :=
| Notification (kind : NotificationKind) (text : jsstring)
| SubmitButtonLoading
| PersonalizedMessageHTML (html : jsstring)
| HideNameInput
| ShowCardDisplay
| SetAudioLabel (l : AudioLabel)
| AudioElementDisplay (shown : bool)
| AudioNote        (* "The couple is preparing a personalized voice message ..." *)
| AudioErrorNote   (* "There was an issue loading the voice message ..." *)
| PlayNote         (* "Click the play button above ..." *)
| ErrorPage (text : jsstring).

Inductive Prog (A : Type) : Type :=
| Ret (a : A)
| Throw (e : JsError)
| OnLine (k : bool -> Prog A)                         (* navigator.onLine *)
| Fetch (req : Request) (k : FetchResult -> Prog A)   (* await fetch(url, options) *)
| GetItem (key : jsstring) (k : option jsstring -> Prog A)
| RemoveItem (key : jsstring) (k : Prog A)
| Pathname (k : jsstring -> Prog A)                   (* window.location.pathname *)
| SetHref (href : jsstring) (k : Prog A)              (* window.location.href = ... *)
| Dom (op : DomOp) (k : Prog A)
| SetAudioSrc (url : Url) (k : Prog A)                (* audioElement.src = ... *)
| Play (k : bool -> Prog A).                          (* await audioElement.play() *)

Arguments Ret {A} a.
Arguments Throw {A} e.
Arguments OnLine {A} k.
Arguments Fetch {A} req k.
Arguments GetItem {A} key k.
Arguments RemoveItem {A} key k.
Arguments Pathname {A} k.
Arguments SetHref {A} href k.
Arguments Dom {A} op k.
Arguments SetAudioSrc {A} url k.
Arguments Play {A} k.

Fixpoint bind {A B : Type} (m : Prog A) (f : A -> Prog B) : Prog B :=
  match m with
  | Ret a => f a
  | Throw e => Throw e
  | OnLine k => OnLine (fun b => bind (k b) f)
  | Fetch req k => Fetch req (fun r => bind (k r) f)
  | GetItem key k => GetItem key (fun v => bind (k v) f)
  | RemoveItem key k => RemoveItem key (bind k f)
  | Pathname k => Pathname (fun p => bind (k p) f)
  | SetHref href k => SetHref href (bind k f)
  | Dom op k => Dom op (bind k f)
  | SetAudioSrc url k => SetAudioSrc url (bind k f)
  | Play k => Play (fun b => bind (k b) f)
  end.

(** [try { m } catch (error) { handler(error) }] *)
Fixpoint catch {A : Type} (m : Prog A) (handler : JsError -> Prog A) : Prog A :=
  match m with
  | Ret a => Ret a
  | Throw e => handler e
  | OnLine k => OnLine (fun b => catch (k b) handler)
  | Fetch req k => Fetch req (fun r => catch (k r) handler)
  | GetItem key k => GetItem key (fun v => catch (k v) handler)
  | RemoveItem key k => RemoveItem key (catch k handler)
  | Pathname k => Pathname (fun p => catch (k p) handler)
  | SetHref href k => SetHref href (catch k handler)
  | Dom op k => Dom op (catch k handler)
  | SetAudioSrc url k => SetAudioSrc url (catch k handler)
  | Play k => Play (fun b => catch (k b) handler)
  end.

#[global] Instance Prog_ret : MRet Prog := fun A a => Ret a.
#[global] Instance Prog_bind : MBind Prog := fun A B f m => bind m f.

(** Single effects as programs. *)
Definition fetch (req : Request) : Prog Response :=
  Fetch req (fun r =>
    match r with
    | Rejected e => Throw e
    | Responded resp => Ret resp
    end).
Definition getItem (key : string) : Prog (option jsstring) :=
  GetItem (str key) Ret.
Definition removeItem (key : string) : Prog unit :=
  RemoveItem (str key) (Ret tt).
Definition dom (op : DomOp) : Prog unit := Dom op (Ret tt).

(** [response.json()] *)
Definition json (r : Response) : Prog Json :=
  match body r with
  | Some j => Ret j
  | None => Throw (mkError (str "SyntaxError") (str "Unexpected token in JSON"))
  end.

(** [a || b] on values that are a string or undefined. *)
Definition or_else (a b : option jsstring) : option jsstring :=
  if truthy_opt a then a else b.

(** [errorData.detail || errorData.message]; reading a property of
    [null] throws a [TypeError]. *)
Definition detail_or_message (errorData : Json) : Prog (option jsstring) :=
  match errorData with
  | JsonNull =>
      Throw (mkError (str "TypeError") (str "Cannot read properties of null"))
  | JsonError detail msg => Ret (or_else detail msg)
  | JsonCard card => Ret (Some (message card))
  | JsonOther => Ret None
  end.

(** [encodeURIComponent(s)], whose value the [Url] record keeps decoded:
    it throws on a lone surrogate. *)
Definition encodeURIComponent (s : jsstring) : Prog jsstring :=
  if well_formed_utf16 s then Ret s
  else Throw (mkError (str "URIError") (str "URI malformed")).

(** *** Running a program *)

Record World (B : Type) := mkWorld {
  localStorage : gmap jsstring jsstring;
  onLine : bool;
  pathname : jsstring;
  autoplay : bool;                 (* does the browser allow play() without a click *)
  audio_ready : bool;              (* did the last audio source load *)
  navigations : list jsstring;     (* assignments to location.href, oldest first *)
  page : list DomOp;               (* writes to the page, oldest first *)
  sent : list Request;             (* requests put on the network, oldest first *)
  backend : B
}.
Arguments mkWorld {B}.
Arguments localStorage {B}.
Arguments onLine {B}.
Arguments pathname {B}.
Arguments autoplay {B}.
Arguments audio_ready {B}.
Arguments navigations {B}.
Arguments page {B}.
Arguments sent {B}.
Arguments backend {B}.

Section Exec.
Context {B : Type}.
(** The server side of one request. *)
Variable serve : B -> Request -> B * FetchResult.

Definition remove_item (key : jsstring) (w : World B) : World B :=
  mkWorld (delete key (localStorage w)) (onLine w) (pathname w) (autoplay w)
    (audio_ready w) (navigations w) (page w) (sent w) (backend w).

Definition navigate (href : jsstring) (w : World B) : World B :=
  mkWorld (localStorage w) (onLine w) (pathname w) (autoplay w)
    (audio_ready w) (navigations w ++ [href]) (page w) (sent w) (backend w).

Definition write_page (ops : list DomOp) (w : World B) : World B :=
  mkWorld (localStorage w) (onLine w) (pathname w) (autoplay w)
    (audio_ready w) (navigations w) (page w ++ ops) (sent w) (backend w).

Definition send (req : Request) (w : World B) : World B * FetchResult :=
  let '(b, r) := serve (backend w) req in
  (mkWorld (localStorage w) (onLine w) (pathname w) (autoplay w)
     (audio_ready w) (navigations w) (page w) (sent w ++ [req]) b, r).

Definition loaded (r : FetchResult) : bool :=
  match r with
  | Responded resp => ok resp
  | Rejected _ => false
  end.

(** Setting the source of the audio element makes it load the URL; the
    [loadstart], [canplay] and [error] listeners of [playAudio] then
    write the label. *)
Definition load_audio (url : Url) (w : World B) : World B :=
  let '(w1, r) := send (mkRequest url (str "GET") ∅ None) w in
  let feedback :=
    if loaded r
    then [SetAudioLabel LabelLoading; SetAudioLabel LabelPersonalVoiceMessage]
    else [SetAudioLabel LabelLoading; SetAudioLabel LabelUnavailable; AudioErrorNote] in
  let w2 := write_page feedback w1 in
  mkWorld (localStorage w2) (onLine w2) (pathname w2) (autoplay w2)
    (loaded r) (navigations w2) (page w2) (sent w2) (backend w2).

Fixpoint exec {A : Type} (p : Prog A) (w : World B) : World B * (JsError + A) :=
  match p with
  | Ret a => (w, inr a)
  | Throw e => (w, inl e)
  | OnLine k => exec (k (onLine w)) w
  | Fetch req k => let '(w', r) := send req w in exec (k r) w'
  | GetItem key k => exec (k (localStorage w !! key)) w
  | RemoveItem key k => exec k (remove_item key w)
  | Pathname k => exec (k (pathname w)) w
  | SetHref href k => exec k (navigate href w)
  | Dom op k => exec k (write_page [op] w)
  | SetAudioSrc url k => exec k (load_audio url w)
  | Play k => exec (k (autoplay w && audio_ready w)) w
  end.

End Exec.

End Browser.

(** ** utils.js *)

Module Utils.

Record ValidationResult := mkValidation {
  isValid : bool;
  errors : list jsstring
}.

(** [errors.push(msg)] under [if (cond)]. *)
Definition push_if (cond : bool) (msg : string) : list jsstring :=
  if cond then [str msg] else [].

(** [/<[^>]*>/] *)
Definition re_tag : Regex.RegExp :=
  Regex.mkRegExp false false
    (Regex.Seq (Regex.chr "<")
       (Regex.Seq (Regex.Star (Regex.Class (fun c => negb (c =? cu ">")%N)))
          (Regex.chr ">"))).

(** [/<script/i] *)
Definition re_script : Regex.RegExp :=
  Regex.mkRegExp false false (Regex.lit_i (list_ascii_of_string "<script")).

(** [/javascript:/i] *)
Definition re_javascript : Regex.RegExp :=
  Regex.mkRegExp false false (Regex.lit_i (list_ascii_of_string "javascript:")).

(** [/on\w+=/i] *)
Definition re_on_handler : Regex.RegExp :=
  Regex.mkRegExp false false
    (Regex.Seq (Regex.chr_i "o")
       (Regex.Seq (Regex.chr_i "n")
          (Regex.Seq (Regex.Plus (Regex.Class Regex.word_char))
             (Regex.chr_i "=")))).

Definition suspiciousPatterns : list Regex.RegExp :=
  [re_script; re_javascript; re_on_handler].

(** [/^[a-zA-Z0-9_-]+$/], the format of usernames and card ids. *)
Definition re_identifier : Regex.RegExp :=
  Regex.mkRegExp true true
    (Regex.Plus
       (Regex.Class (fun c =>
          in_range (cu "a") (cu "z") c || in_range (cu "A") (cu "Z") c
          || in_range (cu "0") (cu "9") c || (c =? cu "_")%N || (c =? cu "-")%N))).

Definition validateMessage (message : jsstring) : ValidationResult :=
  let errors :=
    if isEmpty message || isEmpty (trim message) then
      push_if true "Message is required"
    else
      let trimmedMessage := trim message in
      push_if (length trimmedMessage <? 10)
        "Message must be at least 10 characters long"
      ++ push_if (1000 <? length trimmedMessage)
        "Message must be less than 1000 characters"
      ++ push_if (existsb (fun pattern => Regex.test pattern trimmedMessage)
                    suspiciousPatterns)
        "Message contains invalid content"
  in
  {| isValid := (length errors =? 0); errors := errors |}.

Definition validateRecipientName (name : jsstring) : ValidationResult :=
  let errors :=
    if isEmpty name || isEmpty (trim name) then
      push_if true "Name is required"
    else
      let trimmedName := trim name in
      push_if (length trimmedName <? 1) "Name cannot be empty"
      ++ push_if (100 <? length trimmedName)
        "Name must be less than 100 characters"
      ++ push_if (Regex.test re_tag trimmedName)
        "Name contains invalid characters"
  in
  {| isValid := (length errors =? 0); errors := errors |}.

(** *** Requests *)

Import Browser.

(** [Utils.isOnline] *)
Definition isOnline : Prog bool := OnLine Ret.

(** The [options] argument of [makeRequest]. *)
Record Options := mkOptions {
  opt_method : option jsstring;
  opt_headers : gmap jsstring jsstring;
  opt_body : option jsstring
}.

Definition no_options : Options := mkOptions None ∅ None.

(** The headers of [mergedOptions]: a spread keeps the value of the
    object spread last, so [options.headers] wins over the defaults. *)
Definition merged_headers (token : option jsstring) (options : Options)
    : gmap jsstring jsstring :=
  let defaultHeaders :=
    <[str "Content-Type" := str "application/json"]>
      (match token with
       | Some t => if truthy t then {[str "Authorization" := str "Bearer " ++ t]} else ∅
       | None => ∅
       end) in
  opt_headers options ∪ defaultHeaders.

(** The [switch (response.status)] of [makeRequest]. *)
Definition raise_for_status (st : N) (errorMessage : jsstring) : Prog Json :=
  if (st =? 401)%N then
    removeItem "authToken" ;;
    removeItem "userId" ;;
    removeItem "username" ;;
    path ← Pathname Ret ;
    (if negb (JsString.eqb path (str "/index.html"))
        && negb (endsWith path (str "index.html"))
     then SetHref (str "index.html") (Ret tt)
     else Ret tt) ;;
    Throw (Error (str "Session expired. Please log in again."))
  else if (st =? 403)%N then
    Throw (Error (str "Access denied. You do not have permission to perform this action."))
  else if (st =? 404)%N then
    Throw (Error (str "The requested resource was not found."))
  else if (st =? 429)%N then
    Throw (Error (str "Too many requests. Please wait a moment and try again."))
  else if (st =? 500)%N then
    Throw (Error (str "Server error. Please try again later."))
  else if (st =? 503)%N then
    Throw (Error (str "Service temporarily unavailable. Please try again later."))
  else
    Throw (Error errorMessage).

(** [mergedOptions], with the URL it is sent to; [fetch] uses [GET] when
    no method is given. *)
Definition mergedOptions (token : option jsstring) (url : Url) (options : Options)
    : Request :=
  mkRequest url (default (str "GET") (opt_method options))
    (merged_headers token options) (opt_body options).

(** The outer [catch] of [makeRequest]: a [TypeError] that mentions
    [fetch] becomes a network error, anything else is thrown again. *)
Definition rethrow (error : JsError) : Prog Json :=
  if JsString.eqb (err_name error) (str "TypeError")
     && includes (err_message error) (str "fetch")
  then Throw (Error (str "Network error. Please check your internet connection and try again."))
  else Throw error.

(** [Utils.makeRequest(url, options = {})] *)
Definition makeRequest (url : Url) (options : Options) : Prog Json :=
  token ← getItem "authToken" ;
  catch
    (response ← fetch (mergedOptions token url options) ;
     if negb (ok response) then
       let errorMessage :=
         str "HTTP error! status: " ++ decimal (N.to_nat (status response)) in
       errorMessage ←
         catch
           (errorData ← json response ;
            found ← detail_or_message errorData ;
            Ret (default errorMessage (or_else found (Some errorMessage))))
           (fun parseError =>
              Ret (default errorMessage
                     (or_else (Some (statusText response)) (Some errorMessage)))) ;
       raise_for_status (status response) errorMessage
     else
       json response)
    rethrow.

End Utils.

(** ** card-viewer.js *)

Module CardViewer.

Import Browser.

(** The text matched by [/\{name\}/g]. *)
Definition placeholder : jsstring := str "{name}".

(** [/\{name\}/], the pattern itself. *)
Definition re_placeholder : Regex.RegExp :=
  Regex.mkRegExp false false (Regex.lit placeholder).

(** [CardViewer.personalizeMessage]:
    [message.replace(/\{name\}/g, name)]. *)
Definition personalizeMessage (message name : jsstring) : jsstring :=
  Replace.replace_global placeholder message name.

(** What the specification asks of personalization, in its own words:
    the message with every occurrence of the placeholder replaced by the
    name, the rest of the text copied as it is.  [insert_name] goes
    through the message from left to right and puts the name itself in
    the place of each occurrence. *)
Fixpoint insert_name (name : jsstring) (skip : nat) (rest : jsstring) : jsstring :=
  match rest with
  | [] => []
  | c :: rest' =>
      match skip with
      | S k => insert_name name k rest'
      | O =>
          if starts_with placeholder rest
          then name ++ insert_name name (length placeholder - 1) rest'
          else c :: insert_name name 0 rest'
      end
  end.

Definition spec_personalize (message name : jsstring) : jsstring :=
  insert_name name 0 message.

(** [this.baseUrl] *)
Definition baseUrl : jsstring := str "http://localhost:8000".

(** [nameValidation.errors[0]] *)
Definition first_error (v : Utils.ValidationResult) : jsstring :=
  List.hd [] (Utils.errors v).

(** The [switch (response.status)] of [loadCard]. *)
Definition load_failure (st : N) (errorMessage : option jsstring) : JsError :=
  if (st =? 404)%N then
    Error (str "Wedding card not found. Please check the QR code and try again.")
  else if (st =? 400)%N then
    Error (default (str "Invalid request. Please try scanning the QR code again.")
             (or_else errorMessage None))
  else if (st =? 500)%N then
    Error (str "Server error. Please try again in a few moments.")
  else
    Error (default (str "Failed to load card: " ++ decimal (N.to_nat st))
             (or_else errorMessage None)).

(** [CardViewer.loadCard(cardId, recipientName = null)]; [None] is
    [null].  The card data it returns is also kept in [this.cardData],
    which nothing reads. *)
Definition loadCard (cardId recipientName : option jsstring) : Prog Json :=
  catch
    (if negb (truthy_opt cardId) then
       Throw (Error (str "No card ID provided"))
     else
       let id := default [] cardId in
       if negb (Regex.test Utils.re_identifier id) then
         Throw (Error (str "Invalid card ID format"))
       else
         (if truthy_opt recipientName then
            let nameValidation :=
              Utils.validateRecipientName (default [] recipientName) in
            if negb (Utils.isValid nameValidation)
            then Throw (Error (first_error nameValidation))
            else Ret tt
          else Ret tt) ;;
         online ← Utils.isOnline ;
         if negb online then
           Throw (Error (str "You are offline. Please check your internet connection and try again."))
         else
           query ←
             (if truthy_opt recipientName then
                encoded ← encodeURIComponent (default [] recipientName) ;
                Ret (Some (str "recipient_name", encoded))
              else Ret None) ;
           let url := mkUrl baseUrl [str "cards"; id] query in
           response ←
             fetch (mkRequest url (str "GET")
                      {[str "Content-Type" := str "application/json"]} None) ;
           if negb (ok response) then
             errorMessage ←
               catch (errorData ← json response ; detail_or_message errorData)
                 (fun parseError => Ret (Some (statusText response))) ;
             Throw (load_failure (status response) errorMessage)
           else
             json response)
    (fun error => Throw error).

(** [CardViewer.playAudio(audioPath, recipientName = null)], on a page
    that has the audio element; [cardId] is [this.cardId]. *)
Definition playAudio (cardId audioPath recipientName : option jsstring) : Prog unit :=
  catch
    (if negb (truthy_opt audioPath) then Ret tt
     else
       audioUrl ←
         (if truthy_opt recipientName && truthy_opt cardId then
            encoded ← encodeURIComponent (default [] recipientName) ;
            Ret (mkUrl baseUrl [str "cards"; default [] cardId; str "audio"]
                   (Some (str "recipient_name", encoded)))
          else
            Ret (mkUrl baseUrl [default [] audioPath] None)) ;
       SetAudioSrc audioUrl (Ret tt) ;;
       played ← Play Ret ;
       if (played : bool) then Ret tt else dom PlayNote)
    (fun error =>
       dom (Notification WarningNotification
              (str "There was an issue setting up the audio playback. Please try refreshing the page."))).

(** [card.message] and [card.ai_voice_path] on the value [loadCard]
    returned. *)
Definition card_message (card : Json) : Prog jsstring :=
  match card with
  | JsonCard c => Ret (message c)
  | JsonError _ (Some m) => Ret m
  | _ => Throw (mkError (str "TypeError") (str "Cannot read properties of undefined"))
  end.

Definition card_ai_voice_path (card : Json) : option jsstring :=
  match card with
  | JsonCard c => ai_voice_path c
  | _ => None
  end.

(** The audio part of the submit handler: what the page does with
    [card.ai_voice_path] once the message is shown. *)
Definition show_audio (cardId : option jsstring) (voice_path : option jsstring)
    (recipientName : jsstring) : Prog unit :=
  if truthy_opt voice_path then
    dom (SetAudioLabel LabelPersonalVoiceMessage) ;;
    dom (AudioElementDisplay true) ;;
    playAudio cardId voice_path (Some recipientName)
  else
    dom (SetAudioLabel LabelAvailableSoon) ;;
    dom (AudioElementDisplay false) ;;
    dom AudioNote.

(** The submit handler of [nameForm], on a page that has the elements of
    view-card.html; [value] is the content of the [recipientName] input
    and [cardId] is [cardViewer.cardId].  In the
    [catch] block [originalText] is out of scope (it is a [const] of the
    [try] block), so resetting the button throws. *)
Definition nameForm_submit (cardId : option jsstring) (value : jsstring) : Prog unit :=
  let recipientName := trim value in
  let nameValidation := Utils.validateRecipientName recipientName in
  if negb (Utils.isValid nameValidation) then
    dom (Notification ErrorNotification (first_error nameValidation))
  else
    catch
      (dom SubmitButtonLoading ;;
       card ← loadCard cardId (Some recipientName) ;
       template ← card_message card ;
       let personalizedMessage := personalizeMessage template recipientName in
       dom (PersonalizedMessageHTML personalizedMessage) ;;
       dom HideNameInput ;;
       dom ShowCardDisplay ;;
       show_audio cardId (card_ai_voice_path card) recipientName)
      (fun error =>
         dom (ErrorPage (default (str "Failed to load wedding card")
                           (or_else (Some (err_message error)) None))) ;;
         Throw (mkError (str "ReferenceError") (str "originalText is not defined"))).

End CardViewer.

(** ** The card access and personalization protocol of the backend

    The backend is not part of the sources at hand; this module follows
    sections 3, 4 and 6 of the specification. *)

Module Backend.

(** Modelled from the spec: the Card record of section 3 (the backend
    data model is absent from the sources). *)
Record Card := mkCard {
  id : jsstring;
  owner_id : jsstring;
  message : jsstring;
  ai_voice_path : option jsstring;
  created_at : N;
  view_count : nat
}.

(** Modelled from the spec: the View Event record of section 3. *)
Record ViewEvent := mkViewEvent {
  card_id : jsstring;
  viewer_name : jsstring;
  viewed_at : N;
  ip_address : option jsstring
}.

(** Modelled from the spec: the persistent store, as far as the protocol
    uses it: cards keyed by id and the append-only list of view events. *)
Record Store := mkStore {
  cards : gmap jsstring Card;
  events : list ViewEvent
}.

(** Modelled from the spec: the store before any card is created. *)
Definition empty_store : Store := mkStore ∅ [].

(** Modelled from the spec: the error taxonomy of section 7. *)
Inductive ProtocolError : Type :=
| InvalidInput
| NotFound
| Forbidden
| StorageUnavailable
| UpstreamUnavailable.

(** Modelled from the spec: the output [{message, ai_voice_path}] of
    rendering. *)
Record Rendered := mkRendered {
  out_message : jsstring;
  out_ai_voice_path : option jsstring
}.

(** Modelled from the spec: the result of resolving audio, with the
    sentinel for a card that has no voice yet. *)
Inductive AudioResult : Type :=
| NotYetAvailable
| AudioReference (path : jsstring).

(** Modelled from the spec: [card_id] must match [^[a-zA-Z0-9_-]+$]. *)
Definition valid_card_id (cid : jsstring) : bool :=
  Regex.test Utils.re_identifier cid.

(** Modelled from the spec: [viewer_name] is free text of 1 to 100
    characters that must not contain markup. *)
Definition valid_viewer_name (n : jsstring) : bool :=
  (1 <=? length n) && (length n <=? 100) && negb (Regex.test Utils.re_tag n).

(** Modelled from the spec: the View Events of one card. *)
Definition events_of (cid : jsstring) (evs : list ViewEvent) : list ViewEvent :=
  filter (fun e => card_id e = cid) evs.

(** Modelled from the spec: the one write of the protocol, the event
    append and the counter increment of section 4.1 done together. *)
Definition record_view (st : Store) (c : Card) (ev : ViewEvent) : Store :=
  mkStore
    (<[id c := mkCard (id c) (owner_id c) (message c) (ai_voice_path c)
                 (created_at c) (S (view_count c))]> (cards st))
    (events st ++ [ev]).

Section Protocol.

(** The sanitizer applied to viewer names, which the specification
    names and does not define. *)
Variable sanitize : jsstring -> jsstring.

(** Modelled from the spec: resolve and render a card for a viewer
    (section 4.1).  The format of the inputs is checked before the
    store is read; a viewer name that is supplied is substituted for
    every [{name}] and recorded as one view. *)
Definition render (st : Store) (now : N) (ip : option jsstring)
    (cid : jsstring) (name : option jsstring)
    : Store * (ProtocolError + Rendered) :=
  if negb (valid_card_id cid) then (st, inl InvalidInput)
  else if negb (from_option valid_viewer_name true name) then (st, inl InvalidInput)
  else
    match cards st !! cid with
    | None => (st, inl NotFound)
    | Some c =>
        match name with
        | None => (st, inr (mkRendered (message c) (ai_voice_path c)))
        | Some n =>
            let viewer := sanitize n in
            (record_view st c (mkViewEvent cid viewer now ip),
             inr (mkRendered (CardViewer.spec_personalize (message c) viewer)
                    (ai_voice_path c)))
        end
    end.

(** Modelled from the spec: resolve audio for playback (section 4.1);
    it never writes. *)
Definition resolve_audio (st : Store) (cid : jsstring) (name : option jsstring)
    : Store * (ProtocolError + AudioResult) :=
  if negb (valid_card_id cid) then (st, inl InvalidInput)
  else
    match cards st !! cid with
    | None => (st, inl NotFound)
    | Some c =>
        match ai_voice_path c with
        | None => (st, inr NotYetAvailable)
        | Some path => (st, inr (AudioReference path))
        end
    end.

(** Modelled from the spec: card creation by the Card Repository
    (sections 3 and 4.2): a fresh id, a message of 10 to 1000
    characters, no voice and no views yet. *)
Definition create_card (st : Store) (cid owner msg : jsstring) (now : N) : Store :=
  if valid_card_id cid && (10 <=? length msg) && (length msg <=? 1000)
     && bool_decide (cards st !! cid = None)
  then mkStore (<[cid := mkCard cid owner msg None now 0]> (cards st)) (events st)
  else st.

(** Modelled from the spec: voice generation completes and the card
    gets its audio artifact (section 3). *)
Definition attach_voice (st : Store) (cid path : jsstring) : Store :=
  match cards st !! cid with
  | Some c =>
      mkStore
        (<[cid := mkCard (id c) (owner_id c) (message c) (Some path)
                    (created_at c) (view_count c)]> (cards st))
        (events st)
  | None => st
  end.

(** Modelled from the spec: the per-card rollup of section 4.3, its
    counts. *)
Definition total_views (st : Store) (cid : jsstring) : nat :=
  length (events_of cid (events st)).

(** Modelled from the spec: the operations of the protocol and of its
    two collaborators; listing and analytics only read. *)
Inductive Operation : Type :=
| OpRender (now : N) (ip : option jsstring) (cid : jsstring) (name : option jsstring)
| OpAudio (cid : jsstring) (name : option jsstring)
| OpCreate (cid owner msg : jsstring) (now : N)
| OpVoiceReady (cid path : jsstring)
| OpMyCards (owner : jsstring)
| OpAnalytics (cid requester : jsstring).

(** Modelled from the spec: the store after one operation. *)
Definition step (st : Store) (o : Operation) : Store :=
  match o with
  | OpRender now ip cid name => fst (render st now ip cid name)
  | OpAudio cid name => fst (resolve_audio st cid name)
  | OpCreate cid owner msg now => create_card st cid owner msg now
  | OpVoiceReady cid path => attach_voice st cid path
  | OpMyCards _ => st
  | OpAnalytics _ _ => st
  end.

(** Modelled from the spec: the store after a history of operations,
    starting empty. *)
Definition run (ops : list Operation) : Store := fold_left step ops empty_store.

(** *** The HTTP surface of section 6 *)

(** Modelled from the spec: the server, its store and its clock. *)
Record Server := mkServer {
  store : Store;
  time : N
}.

(** Modelled from the spec: error responses carry [{detail}] and the
    status of section 6. *)
Definition error_response (e : ProtocolError) : Browser.Response :=
  let code :=
    match e with
    | InvalidInput => 400
    | NotFound => 404
    | Forbidden => 403
    | StorageUnavailable => 500
    | UpstreamUnavailable => 503
    end%N in
  Browser.mkResponse code []
    (Some (Browser.JsonError (Some (str "request failed")) None)).

(** Modelled from the spec: [GET /cards/{card_id}?recipient_name=] and
    [GET /cards/{card_id}/audio?recipient_name=]. *)
Definition serve (sv : Server) (req : Browser.Request)
    : Server * Browser.FetchResult :=
  let url := Browser.req_url req in
  let name := snd <$> Browser.url_query url in
  let later := (time sv + 1)%N in
  match Browser.url_path url with
  | [root; cid] =>
      if JsString.eqb root (str "cards") then
        let '(st, r) := render (store sv) (time sv) None cid name in
        (mkServer st later,
         Browser.Responded
           match r with
           | inl e => error_response e
           | inr out =>
               Browser.mkResponse 200 (str "OK")
                 (Some (Browser.JsonCard
                          (Browser.mkCardData (out_message out) (out_ai_voice_path out))))
           end)
      else (mkServer (store sv) later, Browser.Responded (error_response NotFound))
  | [root; cid; leaf] =>
      if JsString.eqb root (str "cards") && JsString.eqb leaf (str "audio") then
        let '(st, r) := resolve_audio (store sv) cid name in
        (mkServer st later,
         Browser.Responded
           match r with
           | inl e => error_response e
           | inr NotYetAvailable => error_response NotFound
           | inr (AudioReference _) => Browser.mkResponse 200 (str "OK") None
           end)
      else (mkServer (store sv) later, Browser.Responded (error_response NotFound))
  | _ => (mkServer (store sv) later, Browser.Responded (error_response NotFound))
  end.

End Protocol.

End Backend.

(** ** Vocabulary of the properties *)

(** [p] occurs in [s] as a contiguous substring. *)
Definition Occurs (p s : jsstring) : Prop :=
  exists pre post, s = pre ++ p ++ post.

(** [out] is [message] with every occurrence of [{name}] replaced by
    [name] and no other part changed: the message is cut at its
    occurrences into stretches of text that hold none, and the stretches
    are kept while each occurrence gives way to the name. *)
Inductive Personalized (name : jsstring) : jsstring -> jsstring -> Prop :=
| P_rest (text : jsstring) :
    ~ Occurs CardViewer.placeholder text -> Personalized name text text
| P_occurrence (text rest out : jsstring) :
    ~ Occurs CardViewer.placeholder text -> Personalized name rest out ->
    Personalized name (text ++ CardViewer.placeholder ++ rest) (text ++ name ++ out).

(** Markup: a [<] with a [>] somewhere after it. *)
Definition ContainsMarkup (s : jsstring) : Prop :=
  exists pre inner post, s = pre ++ cu "<" :: inner ++ cu ">" :: post.

(** The message patterns a card message must stay clear of. *)
Definition suspicious (s : jsstring) : bool :=
  existsb (fun pattern => Regex.test pattern s) Utils.suspiciousPatterns.

(** A name can overlap an occurrence of the placeholder when it is a
    piece of [{name}] (the empty name is one), when [{name}] is a piece of
    it, when it ends with a beginning of [{name}] or when it begins with
    an end of it. *)
Definition overlaps_placeholder (name : jsstring) : bool :=
  includes CardViewer.placeholder name
  || includes name CardViewer.placeholder
  || existsb (fun k => endsWith name (firstn k CardViewer.placeholder)
                       || starts_with (skipn k CardViewer.placeholder) name)
       [1; 2; 3; 4; 5].

(** A plain name: not empty, without [$], so that [replace] inserts it as
    it is, and unable to overlap an occurrence of the placeholder. *)
Definition plain_name (name : jsstring) : bool :=
  negb (isEmpty name)
  && forallb (fun c => negb (c =? cu "$")%N) name
  && negb (overlaps_placeholder name).

(** What can follow the [{] of a placeholder, and what can follow that. *)
Definition placeholder_tails : list jsstring :=
  [str "name}"; str "ame}"; str "me}"; str "e}"; str "}"].

(** The session entries of [localStorage], removed. *)
Definition session_cleared (storage : gmap jsstring jsstring) : gmap jsstring jsstring :=
  delete (str "username") (delete (str "userId") (delete (str "authToken") storage)).

(** The request [loadCard] puts on the network, or the error it throws
    before that. *)
Definition loadCard_request (online : bool) (cardId recipientName : option jsstring)
    : Browser.JsError + Browser.Request :=
  let id := default [] cardId in
  let name := default [] recipientName in
  let request query :=
    Browser.mkRequest (Browser.mkUrl CardViewer.baseUrl [str "cards"; id] query) (str "GET")
      {[str "Content-Type" := str "application/json"]} None in
  if negb (truthy_opt cardId) then inl (Browser.Error (str "No card ID provided"))
  else if negb (Regex.test Utils.re_identifier id) then
    inl (Browser.Error (str "Invalid card ID format"))
  else if truthy_opt recipientName
          && negb (Utils.isValid (Utils.validateRecipientName name)) then
    inl (Browser.Error (CardViewer.first_error (Utils.validateRecipientName name)))
  else if negb online then
    inl (Browser.Error (str "You are offline. Please check your internet connection and try again."))
  else if truthy_opt recipientName then
    if well_formed_utf16 name
    then inr (request (Some (str "recipient_name", name)))
    else inl (Browser.mkError (str "URIError") (str "URI malformed"))
  else inr (request None).

(** What [loadCard] makes of the answer. *)
Definition loadCard_result (r : Browser.FetchResult) : Browser.JsError + Browser.Json :=
  match r with
  | Browser.Rejected e => inl e
  | Browser.Responded response =>
      if Browser.ok response then
        match Browser.body response with
        | Some j => inr j
        | None => inl (Browser.mkError (str "SyntaxError") (str "Unexpected token in JSON"))
        end
      else
        inl (CardViewer.load_failure (Browser.status response)
               match Browser.body response with
               | Some Browser.JsonNull | None => Some (Browser.statusText response)
               | Some (Browser.JsonError detail msg) => Browser.or_else detail msg
               | Some (Browser.JsonCard card) => Some (Browser.message card)
               | Some Browser.JsonOther => None
               end)
  end.

(** The store is consistent: every card sits under its id with a counter
    equal to the number of its View Events, and every View Event is of a
    card of the store. *)
Definition consistent (st : Backend.Store) : Prop :=
  (forall cid c, Backend.cards st !! cid = Some c ->
     Backend.id c = cid
     /\ Backend.view_count c = length (Backend.events_of cid (Backend.events st)))
  /\ (forall e, In e (Backend.events st) ->
        is_Some (Backend.cards st !! Backend.card_id e)).

(** ** The scenario of the specification

    The card [abc123] with the message "Dear {name}, thank you for
    coming!" and no voice yet, in a browser that is online. *)

Definition scenario_card : Backend.Card :=
  Backend.mkCard (str "abc123") (str "owner1")
    (str "Dear {name}, thank you for coming!") None 7 0.

Definition scenario_store : Backend.Store :=
  Backend.mkStore {[str "abc123" := scenario_card]} [].

Definition scenario_world : Browser.World Backend.Server :=
  Browser.mkWorld ∅ true (str "/view-card.html") false false [] [] []
    (Backend.mkServer scenario_store 100).

(** ** utils.js: the form validators and the HTML escape *)

Module UtilsRest.

Import Utils.

(** [/[a-zA-Z]/] *)
Definition re_letter : Regex.RegExp :=
  Regex.mkRegExp false false
    (Regex.Class (fun c => in_range (cu "a") (cu "z") c || in_range (cu "A") (cu "Z") c)).

(** [[^\s@]]: [\s] is the white space [trim] strips. *)
Definition email_char (c : code_unit) : bool :=
  negb (is_js_whitespace c || (c =? cu "@")%N).

(** [/^[^\s@]+@[^\s@]+\.[^\s@]+$/] *)
Definition emailRegex : Regex.RegExp :=
  Regex.mkRegExp true true
    (Regex.Seq (Regex.Plus (Regex.Class email_char))
       (Regex.Seq (Regex.chr "@")
          (Regex.Seq (Regex.Plus (Regex.Class email_char))
             (Regex.Seq (Regex.chr ".")
                (Regex.Plus (Regex.Class email_char)))))).

(** [Utils.validateEmail(email)] *)
Definition validateEmail (email : jsstring) : bool :=
  Regex.test emailRegex email.

(** [Utils.validatePassword(password)] *)
Definition validatePassword (password : jsstring) : ValidationResult :=
  let errors :=
    if isEmpty password then
      push_if true "Password is required"
    else
      push_if (length password <? 6) "Password must be at least 6 characters long"
      ++ push_if (128 <? length password) "Password must be less than 128 characters"
      ++ push_if (negb (Regex.test re_letter password))
           "Password must contain at least one letter"
  in
  {| isValid := (length errors =? 0); errors := errors |}.

(** [Utils.validateUsername(username)] *)
Definition validateUsername (username : jsstring) : ValidationResult :=
  let errors :=
    if isEmpty username then
      push_if true "Username is required"
    else
      push_if (length username <? 3) "Username must be at least 3 characters long"
      ++ push_if (50 <? length username) "Username must be less than 50 characters"
      ++ push_if (negb (Regex.test re_identifier username))
           "Username can only contain letters, numbers, underscores, and hyphens"
  in
  {| isValid := (length errors =? 0); errors := errors |}.

(** [Utils.sanitizeHtml(str)]: the string becomes the text of a fresh
    [div] and the [innerHTML] of the [div] is read back.  Serializing a
    text node escapes [&], the no-break space, [<] and [>] and keeps every
    other code unit. *)
Definition escape_unit (c : code_unit) : jsstring :=
  if (c =? cu "&")%N then str "&amp;"
  else if (c =? 160)%N then str "&nbsp;"
  else if (c =? cu "<")%N then str "&lt;"
  else if (c =? cu ">")%N then str "&gt;"
  else [c].

Definition sanitizeHtml (s : jsstring) : jsstring :=
  flat_map escape_unit s.

End UtilsRest.

(** ** Vocabulary of the further properties *)

(** The characters of user names and card ids. *)
Definition identifier_char (c : code_unit) : bool :=
  in_range (cu "a") (cu "z") c || in_range (cu "A") (cu "Z") c
  || in_range (cu "0") (cu "9") c || (c =? cu "_")%N || (c =? cu "-")%N.

(** An ASCII letter. *)
Definition ascii_letter (c : code_unit) : bool :=
  in_range (cu "a") (cu "z") c || in_range (cu "A") (cu "Z") c.

(** The shape [local@host.tld], every part non-empty and free of white
    space and of [@]. *)
Definition EmailShape (s : jsstring) : Prop :=
  exists local host tld,
    s = local ++ cu "@" :: host ++ cu "." :: tld
    /\ local <> [] /\ host <> [] /\ tld <> []
    /\ forallb UtilsRest.email_char (local ++ host ++ tld) = true.


(** ** The dashboard (the second part of card-viewer.js) *)

Module Dashboard.

(** [DashboardService.truncateMessage(message, maxLength = 100)];
    [substring(0, maxLength)] is the first [maxLength] code units. *)
Definition truncateMessage (message : jsstring) (maxLength : nat) : jsstring :=
  if length message <=? maxLength then message
  else firstn maxLength message ++ str "...".

End Dashboard.

(** ** analytics.js *)

Module Analytics.

Import Browser.

(** [this.baseUrl] *)
Definition baseUrl : jsstring := str "http://localhost:8000".

(** [Analytics.loadUserAnalytics()] *)
Definition loadUserAnalytics : Prog Json :=
  catch
    (online ← Utils.isOnline ;
     if negb online then
       Throw (Error (str "You are offline. Please check your internet connection and try again."))
     else
       userId ← getItem "userId" ;
       if negb (truthy_opt userId) then
         Throw (Error (str "User not logged in"))
       else
         response ←
           Utils.makeRequest
             (mkUrl baseUrl [str "analytics"; str "user"; default [] userId] None)
             Utils.no_options ;
         Ret response)
    (fun error => Throw error).

(** [Analytics.loadCardAnalytics(cardId)]; [None] is [null]. *)
Definition loadCardAnalytics (cardId : option jsstring) : Prog Json :=
  catch
    (online ← Utils.isOnline ;
     if negb online then
       Throw (Error (str "You are offline. Please check your internet connection and try again."))
     else if negb (truthy_opt cardId)
             || negb (Regex.test Utils.re_identifier (default [] cardId)) then
       Throw (Error (str "Invalid card ID"))
     else
       response ←
         Utils.makeRequest
           (mkUrl baseUrl [str "analytics"; default [] cardId] None)
           Utils.no_options ;
       Ret response)
    (fun error => Throw error).

(** One view of a card, as the analytics endpoint lists it. *)
Record View := mkView {
  view_viewer_name : jsstring;
  view_viewed_at : jsstring;
  view_ip_address : option jsstring
}.

(** The analytics of one card; the counts are whole numbers. *)
Record CardAnalytics := mkCardAnalytics {
  card_id : jsstring;
  message : jsstring;
  created_at : jsstring;
  total_views : nat;
  unique_viewers : nat;
  viewer_names : list jsstring;
  recent_views : list View
}.

(** The summary of [renderAnalytics]:
    [analyticsData.reduce((sum, card) => sum + card.total_views, 0)], *)
Definition totalViews (analyticsData : list CardAnalytics) : nat :=
  fold_left (fun sum card => sum + total_views card) analyticsData 0.

(** [analyticsData.length], *)
Definition totalCards (analyticsData : list CardAnalytics) : nat :=
  length analyticsData.

(** and [new Set(analyticsData.flatMap(card => card.viewer_names)).size]. *)
Definition totalUniqueViewers (analyticsData : list CardAnalytics) : nat :=
  size (list_to_set (flat_map viewer_names analyticsData) : gset jsstring).

(** The message of a card in the list, cut at 80 code units. *)
Definition displayMessage (card : CardAnalytics) : jsstring :=
  if 80 <? length (message card)
  then firstn 80 (message card) ++ str "..."
  else message card.

End Analytics.


(** ** auth.js *)

Module AuthService.

Import Browser.

(** [this.baseUrl] *)
Definition baseUrl : jsstring := str "http://localhost:8000".

(** The headers of the logout and verify requests. *)
Definition bearer_headers (token : jsstring) : gmap jsstring jsstring :=
  {[ str "Authorization" := str "Bearer " ++ token;
     str "Content-Type" := str "application/json" ]}.

(** [AuthService.clearAuthData()] *)
Definition clearAuthData : Prog unit :=
  removeItem "authToken" ;;
  removeItem "userId" ;;
  removeItem "username".

(** [AuthService.logout()]: the [catch] block swallows whatever the
    [try] block throws, so the [finally] block runs after it and nothing
    is thrown again. *)
Definition logout : Prog unit :=
  catch
    (token ← getItem "authToken" ;
     if truthy_opt token then
       _ ← fetch (mkRequest (mkUrl baseUrl [str "auth"; str "logout"] None) (str "POST")
                    (bearer_headers (default [] token)) None) ;
       Ret tt
     else Ret tt)
    (fun error => Ret tt) ;;
  removeItem "authToken" ;;
  removeItem "userId" ;;
  removeItem "username" ;;
  SetHref (str "index.html") (Ret tt).

(** The result of [verifyToken]: [{ valid: false }], or
    [{ valid: true, user: data.user }] for the parsed body [data]. *)
Inductive Verification : Type :=
| Invalid
| Valid (data : Json).

(** [AuthService.verifyToken()]; reading [data.user] of [null] throws. *)
Definition verifyToken : Prog Verification :=
  catch
    (token ← getItem "authToken" ;
     if negb (truthy_opt token) then Ret Invalid
     else
       response ←
         fetch (mkRequest (mkUrl baseUrl [str "auth"; str "verify"] None) (str "GET")
                  (bearer_headers (default [] token)) None) ;
       if negb (ok response) then
         clearAuthData ;; Ret Invalid
       else
         data ← json response ;
         match data with
         | JsonNull =>
             Throw (mkError (str "TypeError") (str "Cannot read properties of null"))
         | _ => Ret (Valid data)
         end)
    (fun error => clearAuthData ;; Ret Invalid).

(** [AuthService.isAuthenticated()]:
    [localStorage.getItem('authToken') !== null]. *)
Definition isAuthenticated : Prog bool :=
  token ← getItem "authToken" ;
  Ret (match token with Some _ => true | None => false end).

(** The object [getCurrentUser] returns. *)
Record CurrentUser := mkCurrentUser {
  user_id : option jsstring;
  user_username : option jsstring;
  user_token : option jsstring
}.

(** [AuthService.getCurrentUser()] *)
Definition getCurrentUser : Prog CurrentUser :=
  id ← getItem "userId" ;
  username ← getItem "username" ;
  token ← getItem "authToken" ;
  Ret (mkCurrentUser id username token).

(** [s.split(sep)] for a separator of one code unit. *)
Fixpoint split (sep : code_unit) (s : jsstring) : list jsstring :=
  match s with
  | [] => [[]]
  | c :: rest =>
      if (c =? sep)%N then [] :: split sep rest
      else
        match split sep rest with
        | first :: others => (c :: first) :: others
        | [] => [[c]]
        end
  end.

(** [parts.pop()] on the array [split] made, which is never empty. *)
Definition pop (parts : list jsstring) : jsstring := List.last parts [].

Definition protectedPages : list jsstring :=
  [str "dashboard.html"; str "create-card.html"].

(** The check at the end of the [DOMContentLoaded] listener: on a
    protected page the token is verified, and a visitor without a valid
    one is sent to the login page. *)
Definition check_protected_page : Prog unit :=
  path ← Pathname Ret ;
  let currentPage := pop (split (cu "/") path) in
  if existsb (JsString.eqb currentPage) protectedPages then
    result ← verifyToken ;
    match result with
    | Invalid => SetHref (str "index.html") (Ret tt)
    | Valid _ => Ret tt
    end
  else Ret tt.

(** The checks of the submit handler of [loginForm]: the message it shows
    before it returns, or [None] when it goes on to [login]. *)
Definition loginForm_check (usernameValue password : jsstring) : option jsstring :=
  let username := trim usernameValue in
  let usernameValidation := UtilsRest.validateUsername username in
  let passwordValidation := UtilsRest.validatePassword password in
  if negb (Utils.isValid usernameValidation) then
    Some (List.hd [] (Utils.errors usernameValidation))
  else if negb (Utils.isValid passwordValidation) then
    Some (List.hd [] (Utils.errors passwordValidation))
  else None.

(** The checks of the submit handler of [registerForm], likewise. *)
Definition registerForm_check (usernameValue password confirmPassword : jsstring)
    : option jsstring :=
  let username := trim usernameValue in
  let usernameValidation := UtilsRest.validateUsername username in
  let passwordValidation := UtilsRest.validatePassword password in
  if negb (Utils.isValid usernameValidation) then
    Some (List.hd [] (Utils.errors usernameValidation))
  else if negb (Utils.isValid passwordValidation) then
    Some (List.hd [] (Utils.errors passwordValidation))
  else if isEmpty confirmPassword then
    Some (str "Please confirm your password")
  else if negb (JsString.eqb password confirmPassword) then
    Some (str "Passwords do not match")
  else None.

End AuthService.

(** The message [makeRequest] works out from a response that is not ok:
    [errorData.detail || errorData.message] of a JSON body, the status
    text when the body cannot be used, and else the status line. *)
Definition error_message (response : Browser.Response) : jsstring :=
  let fallback :=
    str "HTTP error! status: " ++ decimal (N.to_nat (Browser.status response)) in
  match Browser.body response with
  | Some Browser.JsonNull | None =>
      if truthy (Browser.statusText response) then Browser.statusText response else fallback
  | Some (Browser.JsonError detail msg) =>
      default fallback (Browser.or_else (Browser.or_else detail msg) (Some fallback))
  | Some (Browser.JsonCard card) =>
      if truthy (Browser.message card) then Browser.message card else fallback
  | Some Browser.JsonOther => fallback
  end.


(** ** auth.js: logging in and registering

    [login] and [register] write to [localStorage] and read an
    authentication payload; they are embedded by passing the browser state
    along.  The server side of the two endpoints is a function of the
    backend and the credentials. *)

Module Login.

Import Browser.

(** [data.user]: the properties [id] and [username], each a string or
    [undefined].  A number is given by its decimal string, which is what
    [setItem] stores. *)
Record UserData := mkUserData {
  user_id : option jsstring;
  user_name : option jsstring
}.

(** The parsed body of an answer: [null], or an object by the properties
    the code reads, [detail], [access_token] and [user], each possibly
    [undefined]. *)
Inductive AuthBody : Type :=
| AuthNull
| AuthObject (detail access_token : option jsstring) (user : option UserData).

(** [auth_body = None]: the body is not JSON. *)
Record AuthResponse := mkAuthResponse {
  auth_status : N;
  auth_body : option AuthBody
}.

Inductive AuthFetchResult : Type :=
| AuthRejected (e : JsError)
| AuthResponded (r : AuthResponse).

(** [/auth/login] and [/auth/register] *)
Inductive Endpoint := LoginEndpoint | RegisterEndpoint.

(** The [POST] request, by its endpoint and the two properties of its
    JSON body. *)
Record AuthRequest := mkAuthRequest {
  endpoint : Endpoint;
  req_username : jsstring;
  req_password : jsstring
}.

(** [{ success: true, user: data.user, token: data.access_token }] *)
Record LoginResult := mkLoginResult {
  result_user : UserData;
  result_token : option jsstring
}.

(** [response.ok] *)
Definition auth_ok (r : AuthResponse) : bool :=
  (200 <=? auth_status r)%N && (auth_status r <=? 299)%N.

(** The string [setItem] stores for a value that is a string or
    [undefined]. *)
Definition to_string (v : option jsstring) : jsstring :=
  default (str "undefined") v.

Section Run.
Context {B : Type}.
Variable authenticate : B -> AuthRequest -> B * AuthFetchResult.

(** [localStorage.setItem(key, value)] *)
Definition set_item (key value : jsstring) (w : World B) : World B :=
  mkWorld (<[key := value]> (localStorage w)) (onLine w) (pathname w) (autoplay w)
    (audio_ready w) (navigations w) (page w) (sent w) (backend w).

Definition with_backend (b : B) (w : World B) : World B :=
  mkWorld (localStorage w) (onLine w) (pathname w) (autoplay w)
    (audio_ready w) (navigations w) (page w) (sent w) b.

(** [AuthService.login(username, password)].  The body is parsed before
    the status is looked at; the [catch] block throws the error again. *)
Definition login (username password : jsstring) (w : World B)
    : World B * (JsError + LoginResult) :=
  let '(b, answer) :=
    authenticate (backend w) (mkAuthRequest LoginEndpoint username password) in
  let w1 := with_backend b w in
  match answer with
  | AuthRejected e => (w1, inl e)
  | AuthResponded response =>
      match auth_body response with
      | None =>
          (w1, inl (mkError (str "SyntaxError") (str "Unexpected token in JSON")))
      | Some AuthNull =>
          (w1, inl (mkError (str "TypeError") (str "Cannot read properties of null")))
      | Some (AuthObject detail access_token user) =>
          if negb (auth_ok response) then
            (w1, inl (Error (if truthy_opt detail then default [] detail
                             else str "Login failed")))
          else
            let w2 := set_item (str "authToken") (to_string access_token) w1 in
            match user with
            | None =>
                (w2, inl (mkError (str "TypeError")
                            (str "Cannot read properties of undefined")))
            | Some u =>
                let w3 := set_item (str "userId") (to_string (user_id u)) w2 in
                let w4 := set_item (str "username") (to_string (user_name u)) w3 in
                (w4, inr (mkLoginResult u access_token))
            end
      end
  end.

(** [AuthService.register(username, password)] *)
Definition register (username password : jsstring) (w : World B)
    : World B * (JsError + LoginResult) :=
  let '(b, answer) :=
    authenticate (backend w) (mkAuthRequest RegisterEndpoint username password) in
  let w1 := with_backend b w in
  match answer with
  | AuthRejected e => (w1, inl e)
  | AuthResponded response =>
      match auth_body response with
      | None =>
          (w1, inl (mkError (str "SyntaxError") (str "Unexpected token in JSON")))
      | Some AuthNull =>
          (w1, inl (mkError (str "TypeError") (str "Cannot read properties of null")))
      | Some (AuthObject detail access_token user) =>
          if negb (auth_ok response) then
            (w1, inl (Error (if truthy_opt detail then default [] detail
                             else str "Registration failed")))
          else
            let w2 := set_item (str "authToken") (to_string access_token) w1 in
            match user with
            | None =>
                (w2, inl (mkError (str "TypeError")
                            (str "Cannot read properties of undefined")))
            | Some u =>
                let w3 := set_item (str "userId") (to_string (user_id u)) w2 in
                let w4 := set_item (str "username") (to_string (user_name u)) w3 in
                (w4, inr (mkLoginResult u access_token))
            end
      end
  end.

End Run.

End Login.

(* ===================================================================== *)
(** * Part II: properties *)
(* ===================================================================== *)

(** ** Strings *)

Section StringFacts.

Lemma starts_with_app (p rest : jsstring) : starts_with p (p ++ rest) = true.
Proof.
  induction p as [|a p IH]; simpl; [reflexivity|].
  now rewrite N.eqb_refl, IH.
Qed.

Lemma starts_with_split (p s : jsstring) :
  starts_with p s = true -> exists rest, s = p ++ rest.
Proof.
  revert s; induction p as [|a p IH]; intros s H.
  - now exists s.
  - destruct s as [|b s]; simpl in H; [discriminate|].
    apply andb_prop in H as [Hab Hps].
    apply N.eqb_eq in Hab; subst b.
    destruct (IH _ Hps) as [rest ->].
    now exists rest.
Qed.

Lemma includes_unfold (s p : jsstring) :
  includes s p =
  starts_with p s || match s with [] => false | _ :: s' => includes s' p end.
Proof. now destruct s. Qed.

Lemma includes_Occurs (s p : jsstring) : includes s p = true <-> Occurs p s.
Proof.
  split.
  - induction s as [|c s IH]; simpl; intros H.
    + rewrite orb_false_r in H.
      apply starts_with_split in H as [rest ->]. now exists [], rest.
    + apply orb_prop in H as [H|H].
      * apply starts_with_split in H as [rest ->]. now exists [], rest.
      * destruct (IH H) as (pre & post & ->). now exists (c :: pre), post.
  - intros (pre & post & ->).
    induction pre as [|c pre IH]; simpl.
    + now rewrite includes_unfold, starts_with_app.
    + rewrite IH. apply orb_true_r.
Qed.

Lemma starts_with_app_l (p t rest : jsstring) :
  starts_with p t = true -> starts_with p (t ++ rest) = true.
Proof.
  revert t; induction p as [|a p IH]; intros t H; [reflexivity|].
  destruct t as [|b t]; [discriminate|]. cbn [starts_with app] in *.
  apply andb_prop in H as [-> H]. now apply IH.
Qed.

Lemma starts_with_iff (p s : jsstring) :
  starts_with p s = true <-> exists rest, s = p ++ rest.
Proof.
  split; [apply starts_with_split|]. intros [rest ->]. apply starts_with_app.
Qed.

Lemma isEmpty_length (s : jsstring) : isEmpty s = (length s =? 0).
Proof. now destruct s. Qed.

Lemma trim_empty : trim [] = [].
Proof. reflexivity. Qed.

End StringFacts.

(** ** The derivative matcher decides the language of a pattern *)

Section RegexFacts.

Import Regex.

Lemma nullable_Lang (r : regex) : nullable r = true <-> Lang r [].
Proof.
  induction r as [| |p|r1 IH1 r2 IH2|r1 IH1 r2 IH2|r IH]; simpl.
  - split; [discriminate|inversion 1].
  - split; [constructor|reflexivity].
  - split; [discriminate|inversion 1].
  - rewrite andb_true_iff, IH1, IH2. split.
    + intros [H1 H2]. change (@nil code_unit) with (@nil code_unit ++ []).
      now constructor.
    + inversion 1 as [| |? ? s1 s2 H1 H2| | | |]; subst.
      match goal with E : _ ++ _ = [] |- _ => apply app_eq_nil in E as [-> ->] end.
      now split.
  - rewrite orb_true_iff, IH1, IH2. split.
    + intros [H|H]; [now apply L_alt_l|now apply L_alt_r].
    + inversion 1; subst; [now left|now right].
  - split; [constructor|reflexivity].
Qed.

(** A non-empty word of [Star r] starts with a non-empty word of [r]. *)
Lemma Lang_star_cons (r : regex) (c : code_unit) (s : jsstring) :
  Lang (Star r) (c :: s) ->
  exists s1 s2, s = s1 ++ s2 /\ Lang r (c :: s1) /\ Lang (Star r) s2.
Proof.
  intros H. remember (Star r) as r' eqn:Er. remember (c :: s) as w eqn:Ew.
  revert c s Ew.
  induction H as [| | | | | |r0 s1 s2 H1 _ H2 IH2]; intros c0 s0 Ew;
    try discriminate.
  injection Er as ->.
  destruct s1 as [|a s1]; simpl in Ew.
  - now apply IH2.
  - injection Ew as -> <-. now exists s1, s2.
Qed.

Lemma deriv_Lang (c : code_unit) (r : regex) (s : jsstring) :
  Lang (deriv c r) s <-> Lang r (c :: s).
Proof.
  revert s.
  induction r as [| |p|r1 IH1 r2 IH2|r1 IH1 r2 IH2|r IH]; intros s; simpl.
  - split; inversion 1.
  - split; inversion 1.
  - destruct (p c) eqn:Hp; split; intros H.
    + inversion H; subst. now constructor.
    + inversion H; subst. constructor.
    + inversion H.
    + inversion H; subst. congruence.
  - assert (Hseq : Lang (Seq (deriv c r1) r2) s -> Lang (Seq r1 r2) (c :: s)).
    { inversion 1 as [| |? ? s1 s2 H1 H2| | | |]; subst.
      change (c :: s1 ++ s2) with ((c :: s1) ++ s2).
      constructor; [now apply IH1|assumption]. }
    assert (Hback : Lang (Seq r1 r2) (c :: s) ->
              Lang (Seq (deriv c r1) r2) s \/ (Lang r1 [] /\ Lang r2 (c :: s))).
    { inversion 1 as [| |? ? s1 s2 H1 H2| | | |]; subst.
      match goal with E : _ ++ _ = _ :: _ |- _ => rename E into E0 end.
      destruct s1 as [|a s1]; simpl in E0.
      - subst s2. now right.
      - injection E0 as -> <-. left. constructor; [now apply IH1|assumption]. }
    destruct (nullable r1) eqn:Hn; split; intros H.
    + inversion H; subst; [now apply Hseq|].
      change (c :: s) with ([] ++ c :: s).
      constructor; [now apply nullable_Lang|now apply IH2].
    + destruct (Hback H) as [H'|[_ H']]; [now apply L_alt_l|].
      apply L_alt_r. now apply IH2.
    + now apply Hseq.
    + destruct (Hback H) as [H'|[H' _]]; [assumption|].
      apply nullable_Lang in H'. congruence.
  - split; intros H; inversion H; subst.
    + apply L_alt_l. now apply IH1.
    + apply L_alt_r. now apply IH2.
    + apply L_alt_l. now apply IH1.
    + apply L_alt_r. now apply IH2.
  - split; intros H.
    + inversion H as [| |? ? s1 s2 H1 H2| | | |]; subst.
      change (c :: s1 ++ s2) with ((c :: s1) ++ s2).
      constructor; [now apply IH|assumption].
    + apply Lang_star_cons in H as (s1 & s2 & -> & H1 & H2).
      constructor; [now apply IH|assumption].
Qed.

Lemma accepts_Lang (r : regex) (s : jsstring) : accepts r s = true <-> Lang r s.
Proof.
  revert r; induction s as [|c s IH]; intros r; simpl.
  - apply nullable_Lang.
  - rewrite IH. apply deriv_Lang.
Qed.

Lemma match_here_Lang (r : regex) (s : jsstring) :
  match_here r s = true <-> exists m post, s = m ++ post /\ Lang r m.
Proof.
  revert r; induction s as [|c s IH]; intros r; simpl.
  - rewrite orb_false_r, nullable_Lang. split.
    + intros H. now exists [], [].
    + intros (m & post & E & H). symmetry in E.
      apply app_eq_nil in E as [-> _]. assumption.
  - rewrite orb_true_iff, nullable_Lang, IH. split.
    + intros [H|(m & post & -> & H)].
      * now exists [], (c :: s).
      * exists (c :: m), post. split; [reflexivity|now apply deriv_Lang].
    + intros (m & post & E & H). destruct m as [|a m]; simpl in E.
      * now left.
      * injection E as <- ->. right. exists m, post.
        split; [reflexivity|now apply deriv_Lang].
Qed.

(** An unanchored pattern matches when some substring is in its
    language. *)
Lemma search_Lang (r : regex) (s : jsstring) :
  search match_here r s = true <->
  exists pre m post, s = pre ++ m ++ post /\ Lang r m.
Proof.
  induction s as [|c s IH]; cbn [search].
  - rewrite orb_false_r, match_here_Lang. split.
    + intros (m & post & E & H). now exists [], m, post.
    + intros (pre & m & post & E & H). symmetry in E.
      apply app_eq_nil in E as [-> E]. now exists m, post.
  - rewrite orb_true_iff, match_here_Lang, IH. split.
    + intros [(m & post & E & H)|(pre & m & post & -> & H)].
      * now exists [], m, post.
      * now exists (c :: pre), m, post.
    + intros (pre & m & post & E & H). destruct pre as [|a pre]; simpl in E.
      * left. now exists m, post.
      * injection E as <- ->. right. now exists pre, m, post.
Qed.

Lemma Lang_star_class (p : code_unit -> bool) (s : jsstring) :
  Lang (Star (Class p)) s <-> forallb p s = true.
Proof.
  split.
  - intros H. remember (Star (Class p)) as r eqn:Er.
    induction H as [| | | | | |r0 s1 s2 H1 _ H2 IH2]; try discriminate.
    + reflexivity.
    + injection Er as ->. inversion H1; subst. simpl.
      rewrite IH2 by reflexivity. now rewrite andb_true_r.
  - induction s as [|c s IH]; simpl; intros H.
    + constructor.
    + apply andb_prop in H as [Hc Hs].
      change (c :: s) with ([c] ++ s).
      constructor; [now constructor|now apply IH].
Qed.

Lemma Lang_plus_class (p : code_unit -> bool) (s : jsstring) :
  Lang (Plus (Class p)) s <-> s <> [] /\ forallb p s = true.
Proof.
  unfold Plus. split.
  - inversion 1 as [| |? ? s1 s2 H1 H2| | | |]; subst.
    inversion H1; subst. apply Lang_star_class in H2. simpl.
    split; [discriminate|]. now rewrite H2, andb_true_r.
  - intros [Hne H]. destruct s as [|c s]; [congruence|].
    simpl in H. apply andb_prop in H as [Hc Hs].
    change (c :: s) with ([c] ++ s).
    constructor; [now constructor|now apply Lang_star_class].
Qed.

Lemma Lang_lit (p m : jsstring) : Lang (lit p) m <-> m = p.
Proof.
  revert m; induction p as [|a p IH]; intros m; cbn [lit].
  - split; [now inversion 1|intros ->; constructor].
  - split.
    + inversion 1 as [| |? ? s1 s2 H1 H2| | | |]; subst.
      inversion H1 as [|? c Hc| | | | |]; subst.
      apply N.eqb_eq in Hc; subst c. apply IH in H2; now subst.
    + intros ->. change (a :: p) with ([a] ++ p).
      constructor; [constructor; apply N.eqb_refl|now apply IH].
Qed.

(** A literal pattern matches at an index when the text there starts with
    it, which is how [Replace.replace_scan] looks for its matches. *)
Lemma match_here_lit (p s : jsstring) :
  match_here (lit p) s = true <-> starts_with p s = true.
Proof.
  rewrite match_here_Lang, starts_with_iff. split.
  - intros (m & post & -> & H). apply Lang_lit in H; subst. now exists post.
  - intros [rest ->]. exists p, rest. split; [reflexivity|now apply Lang_lit].
Qed.

End RegexFacts.

(** ** The patterns of utils.js *)

Section PatternFacts.

Import Regex.

(** An identifier is a non-empty run of letters, digits, [_] and [-]. *)
Lemma test_re_identifier (s : jsstring) :
  test Utils.re_identifier s = true <->
  s <> [] /\
  forallb (fun c => in_range (cu "a") (cu "z") c || in_range (cu "A") (cu "Z") c
                    || in_range (cu "0") (cu "9") c || (c =? cu "_")%N
                    || (c =? cu "-")%N) s = true.
Proof.
  unfold test, Utils.re_identifier; cbn [anchored_start anchored_end body].
  rewrite accepts_Lang. apply Lang_plus_class.
Qed.

Lemma first_closing (inner post : jsstring) :
  exists inner' post',
    inner ++ cu ">" :: post = inner' ++ cu ">" :: post' /\
    forallb (fun c => negb (c =? cu ">")%N) inner' = true.
Proof.
  induction inner as [|c inner (inner' & post' & E & H)].
  - now exists [], post.
  - destruct (c =? cu ">")%N eqn:Hc.
    + apply N.eqb_eq in Hc; subst c. now exists [], (inner ++ cu ">" :: post).
    + exists (c :: inner'), post'. cbn [app forallb]. rewrite E, Hc, H. now split.
Qed.

Lemma test_re_tag (s : jsstring) :
  test Utils.re_tag s = true <-> ContainsMarkup s.
Proof.
  unfold test, Utils.re_tag; cbn [anchored_start anchored_end body].
  rewrite search_Lang. split.
  - intros (pre & m & post & -> & H).
    inversion H as [| |? ? s1 s2 H1 H2| | | |]; subst; clear H.
    inversion H1; subst; clear H1.
    inversion H2 as [| |? ? s3 s4 H3 H4| | | |]; subst; clear H2.
    inversion H4; subst; clear H4.
    repeat match goal with E : (_ =? _)%N = true |- _ => apply N.eqb_eq in E; subst end.
    exists pre, s3, post. now rewrite <- !app_assoc.
  - intros (pre & inner & post & ->).
    destruct (first_closing inner post) as (inner' & post' & E & H).
    exists pre, (cu "<" :: inner' ++ [cu ">"]), post'. split.
    + cbn [app]. rewrite <- app_assoc. cbn [app]. now rewrite E.
    + change (cu "<" :: inner' ++ [cu ">"]) with ([cu "<"] ++ inner' ++ [cu ">"]).
      constructor; [now constructor|].
      constructor; [now apply Lang_star_class|now constructor].
Qed.

End PatternFacts.

(** ** The validators *)

Section Validators.

Import Utils.

Lemma pushed_none (a b c : bool) (ma mb mc : string) :
  (length (push_if a ma ++ push_if b mb ++ push_if c mc) =? 0)
  = negb a && negb b && negb c.
Proof. now destruct a, b, c. Qed.

Lemma validation_errors (v : ValidationResult) :
  isValid v = (length (errors v) =? 0) ->
  (isValid v = false -> errors v <> []) /\ (isValid v = true -> errors v = []).
Proof.
  intros E. rewrite E. destruct (errors v); simpl; split; congruence.
Qed.

Lemma blank_trim (s : jsstring) :
  isEmpty s || isEmpty (trim s) = (length (trim s) =? 0).
Proof.
  destruct s as [|c s]; [reflexivity|]. simpl isEmpty at 1.
  now rewrite orb_false_l, isEmpty_length.
Qed.

(** C5.  [validateRecipientName] accepts a string exactly when its
    trimmed form has between 1 and 100 code units and contains no markup
    (no [<] followed by a [>]); a rejected name comes with at least one
    error message and an accepted one with none. *)
Theorem validateRecipientName_accepts (S : jsstring) :
  let v := validateRecipientName S in
  (isValid v = true <->
     1 <= length (trim S) <= 100 /\ ~ ContainsMarkup (trim S))
  /\ (isValid v = false -> errors v <> [])
  /\ (isValid v = true -> errors v = []).
Proof.
  intros v. split; [|now apply validation_errors].
  subst v. unfold validateRecipientName. cbn [isValid].
  rewrite blank_trim, <- test_re_tag.
  destruct (length (trim S) =? 0) eqn:E0.
  - apply Nat.eqb_eq in E0. simpl. split; [discriminate|lia].
  - apply Nat.eqb_neq in E0. rewrite pushed_none, !andb_true_iff, !negb_true_iff.
    rewrite !Nat.ltb_ge, not_true_iff_false. split.
    + intros [[H1 H2] H3]. repeat split; [lia|lia|assumption].
    + intros [[H1 H2] H3]. repeat split; [lia|lia|assumption].
Qed.

(** C7, as the code has it.  [validateMessage] accepts a string exactly
    when its trimmed form has between 10 and 1000 code units and matches
    none of the suspicious patterns [/<script/i], [/javascript:/i] and
    [/on\w+=/i]. *)
Theorem validateMessage_accepts (S : jsstring) :
  isValid (validateMessage S) = true <->
  10 <= length (trim S) <= 1000 /\ suspicious (trim S) = false.
Proof.
  unfold validateMessage, suspicious. cbn [isValid].
  rewrite blank_trim.
  destruct (length (trim S) =? 0) eqn:E0.
  - apply Nat.eqb_eq in E0. simpl. split; [discriminate|lia].
  - rewrite pushed_none, !andb_true_iff, !negb_true_iff, !Nat.ltb_ge.
    tauto.
Qed.

(** C7 as stated fails: a message of 25 characters that opens a script
    tag is within the length bounds and is rejected. *)
Lemma validateMessage_length_only_fails :
  let S := str "<script>alert(1)</script>" in
  ~ (isValid (validateMessage S) = true <-> 10 <= length (trim S) <= 1000).
Proof.
  intros S [_ H].
  assert (Hlen : 10 <= length (trim S) <= 1000) by (vm_compute; lia).
  specialize (H Hlen). vm_compute in H. discriminate.
Qed.

(** The validators on a few inputs. *)
Example recipient_names :
  isValid (validateRecipientName (str "  Alice  ")) = true
  /\ validateRecipientName (str "   ") = mkValidation false [str "Name is required"]
  /\ validateRecipientName (str "<b>Bob</b>")
     = mkValidation false [str "Name contains invalid characters"]
  /\ isValid (validateRecipientName (str "a > b < c")) = true
  /\ isValid (validateRecipientName (repeat (cu "x") 100)) = true
  /\ errors (validateRecipientName (repeat (cu "x") 101 ++ str "<>"))
     = [str "Name must be less than 100 characters";
        str "Name contains invalid characters"].
Proof. vm_compute. repeat split. Qed.

Example card_messages :
  isValid (validateMessage (str "Dear {name}, thank you for coming!")) = true
  /\ errors (validateMessage (str "  too short   "))
     = [str "Message must be at least 10 characters long"]
  /\ errors (validateMessage (str "see JavaScript:void(0) here"))
     = [str "Message contains invalid content"]
  /\ errors (validateMessage (str "bring money=10 with you"))
     = [str "Message contains invalid content"]
  /\ isValid (validateMessage (repeat (cu "x") 1000)) = true
  /\ isValid (validateMessage (repeat (cu "x") 1001)) = false.
Proof. vm_compute. repeat split. Qed.

End Validators.

(** ** Personalization *)

Section Personalization.

Import Replace CardViewer.

Lemma placeholder_cons : placeholder = cu "{" :: str "name}".
Proof. reflexivity. Qed.

Lemma starts_with_placeholder (c : code_unit) (s : jsstring) :
  starts_with placeholder (c :: s) = (cu "{" =? c)%N && starts_with (str "name}") s.
Proof. now rewrite placeholder_cons. Qed.

(** Without a match nothing is rewritten, whatever the template. *)
Lemma replace_scan_no_match (pat template s rest : jsstring) (position : nat) :
  includes rest pat = false ->
  replace_scan pat template s position 0 rest = rest.
Proof.
  revert position; induction rest as [|c rest IH]; intros position H.
  - reflexivity.
  - rewrite includes_unfold in H. apply orb_false_elim in H as [Hhere Hlater].
    cbn [replace_scan]. rewrite Hhere. f_equal. now apply IH.
Qed.

(** *** The loop of [replace] and the single pass agree *)

Lemma replace_scan_skip (pat template s : jsstring) (k : nat) :
  forall rest position,
    replace_scan pat template s position k rest
    = replace_scan pat template s (position + k) 0 (skipn k rest).
Proof.
  induction k as [|k IH]; intros rest position.
  - now rewrite Nat.add_0_r.
  - destruct rest as [|c rest]; [reflexivity|].
    cbn [replace_scan skipn]. rewrite IH. f_equal. lia.
Qed.

Lemma exec_literal_None (pat rest : jsstring) (index : nat) :
  exec_literal pat rest index = None -> includes rest pat = false.
Proof.
  revert index; induction rest as [|c rest IH]; intros index; cbn [exec_literal].
  - rewrite includes_unfold. now destruct (starts_with pat []).
  - rewrite includes_unfold. destruct (starts_with pat (c :: rest)); [discriminate|].
    apply IH.
Qed.

(** The match [exec_literal] finds is the first one. *)
Lemma exec_literal_Some (pat template s rest : jsstring) (index position : nat) :
  exec_literal pat rest index = Some position ->
  exists k, position = index + k
    /\ starts_with pat (skipn k rest) = true
    /\ replace_scan pat template s index 0 rest
       = firstn k rest ++ replace_scan pat template s position 0 (skipn k rest).
Proof.
  revert index; induction rest as [|c rest IH]; intros index; cbn [exec_literal].
  - destruct (starts_with pat []) eqn:E; [|discriminate].
    intros [= <-]. exists 0. rewrite Nat.add_0_r. now split.
  - destruct (starts_with pat (c :: rest)) eqn:E.
    + intros [= <-]. exists 0. rewrite Nat.add_0_r. now split.
    + intros H. destruct (IH _ H) as (k & -> & Hk & Hscan).
      exists (S k). split; [lia|]. split; [exact Hk|].
      cbn [replace_scan firstn skipn]. rewrite E, Hscan.
      replace (S index + k) with (index + S k) by lia. reflexivity.
Qed.

Lemma starts_with_length (p s : jsstring) :
  starts_with p s = true -> length p <= length s.
Proof.
  intros H. apply starts_with_split in H as [rest ->]. rewrite length_app. lia.
Qed.

Lemma replace_scan_match (pat template s rest : jsstring) (position : nat) :
  pat <> [] -> starts_with pat rest = true ->
  replace_scan pat template s position 0 rest
  = GetSubstitution pat s position template
    ++ replace_scan pat template s (position + length pat) 0 (skipn (length pat) rest).
Proof.
  intros Hpat H. destruct pat as [|a pat]; [congruence|].
  destruct rest as [|c rest]; [discriminate|].
  cbn [replace_scan]. rewrite H. f_equal.
  rewrite replace_scan_skip. cbn [length skipn].
  replace (S (length pat) - 1) with (length pat) by lia.
  f_equal. lia.
Qed.

Lemma replace_global_scan_from (pat template s : jsstring) :
  pat <> [] ->
  forall fuel lastIndex,
    lastIndex <= length s -> length s - lastIndex < fuel ->
    accumulate pat s template (match_positions fuel pat s lastIndex) lastIndex
    = replace_scan pat template s lastIndex 0 (skipn lastIndex s).
Proof.
  intros Hpat. induction fuel as [|fuel IH]; intros lastIndex Hle Hfuel; [lia|].
  cbn [match_positions].
  destruct (exec_literal pat (skipn lastIndex s) lastIndex) as [position|] eqn:E.
  - destruct (exec_literal_Some pat template s _ _ _ E) as (k & -> & Hk & Hscan).
    rewrite Hscan. cbn [accumulate].
    rewrite skipn_skipn in Hk |- *.
    pose proof (starts_with_length _ _ Hk) as Hlen. rewrite length_skipn in Hlen.
    assert (Hpos : 0 < length pat) by (destruct pat; [congruence|cbn; lia]).
    replace (Nat.max 1 (length pat)) with (length pat) by lia.
    replace (lastIndex <=? lastIndex + k) with true by (symmetry; apply Nat.leb_le; lia).
    unfold substring. replace (lastIndex + k - lastIndex) with k by lia.
    f_equal. rewrite (replace_scan_match pat template s _ _ Hpat Hk). f_equal.
    rewrite skipn_skipn, IH by lia.
    f_equal. f_equal. lia.
  - cbn [accumulate]. symmetry. apply replace_scan_no_match.
    now apply (exec_literal_None _ _ lastIndex).
Qed.

Lemma replace_global_scan (pat s template : jsstring) :
  pat <> [] ->
  replace_global pat s template = replace_scan pat template s 0 0 s.
Proof.
  intros Hpat. unfold replace_global.
  now rewrite replace_global_scan_from by (assumption || lia).
Qed.

Lemma personalizeMessage_scan (message name : jsstring) :
  personalizeMessage message name = replace_scan placeholder name message 0 0 message.
Proof. now apply replace_global_scan. Qed.

(** A template without [$] stands for itself. *)
Lemma GetSubstitution_literal (matched s template : jsstring) (position : nat) :
  forallb (fun c => negb (c =? dollar)%N) template = true ->
  GetSubstitution matched s position template = template.
Proof.
  induction template as [|c template IH]; intros H.
  - reflexivity.
  - cbn [forallb] in H. apply andb_prop in H as [Hc H].
    apply negb_true_iff in Hc. cbn [GetSubstitution]. rewrite Hc.
    f_equal. now apply IH.
Qed.

Lemma replace_scan_insert_name (name : jsstring) :
  forallb (fun c => negb (c =? dollar)%N) name = true ->
  forall rest whole position skip,
    replace_scan placeholder name whole position skip rest
    = insert_name name skip rest.
Proof.
  intros Hname. induction rest as [|c rest IH]; intros whole position skip.
  - reflexivity.
  - cbn [replace_scan insert_name]. destruct skip as [|k]; [|apply IH].
    destruct (starts_with placeholder (c :: rest)).
    + rewrite GetSubstitution_literal by assumption. f_equal. apply IH.
    + f_equal. apply IH.
Qed.

(** For a name without [$], [personalizeMessage] is the literal
    substitution the specification describes. *)
Lemma personalizeMessage_literal (message name : jsstring) :
  forallb (fun c => negb (c =? dollar)%N) name = true ->
  personalizeMessage message name = spec_personalize message name.
Proof.
  intros Hname. rewrite personalizeMessage_scan. now apply replace_scan_insert_name.
Qed.

(** The pattern of the source finds the occurrences of the placeholder. *)
Lemma test_re_placeholder (s : jsstring) :
  Regex.test re_placeholder s = true <-> Occurs placeholder s.
Proof.
  unfold Regex.test, re_placeholder.
  cbn [Regex.anchored_start Regex.anchored_end Regex.body].
  rewrite search_Lang. split.
  - intros (pre & m & post & -> & H). apply Lang_lit in H; subst. now exists pre, post.
  - intros (pre & post & ->). exists pre, placeholder, post.
    split; [reflexivity|now apply Lang_lit].
Qed.

(** *** The literal substitution of the specification *)

(** Two occurrences of the placeholder do not overlap: it starts with the
    only [{] it has. *)
Lemma placeholder_no_overlap (t rest : jsstring) :
  starts_with placeholder (t ++ placeholder ++ rest) = true ->
  t = [] \/ starts_with placeholder t = true.
Proof.
  intros H.
  destruct t as [|t0 [|t1 [|t2 [|t3 [|t4 [|t5 t]]]]]]; [now left|..];
    (let v := eval vm_compute in placeholder in change placeholder with v in * );
    cbn [starts_with app] in *;
    repeat match goal with
           | H : _ && _ = true |- _ => apply andb_prop in H; destruct H
           end;
    repeat match goal with
           | H : (_ =? _)%N = true |- _ => apply N.eqb_eq in H; subst
           end;
    try congruence.
  right. reflexivity.
Qed.

Lemma not_Occurs_cons (p : jsstring) (c : code_unit) (t : jsstring) :
  ~ Occurs p (c :: t) -> starts_with p (c :: t) = false /\ ~ Occurs p t.
Proof.
  intros Hfree. split.
  - apply not_true_iff_false. intros E. apply Hfree, includes_Occurs.
    rewrite includes_unfold, E. reflexivity.
  - intros (pre & post & ->). apply Hfree. now exists (c :: pre), post.
Qed.

Lemma insert_name_free (name t : jsstring) :
  ~ Occurs placeholder t -> insert_name name 0 t = t.
Proof.
  induction t as [|c t IH]; intros Hfree; [reflexivity|].
  apply not_Occurs_cons in Hfree as [E Hfree].
  cbn [insert_name]. rewrite E. f_equal. now apply IH.
Qed.

Lemma insert_name_past_text (name t rest : jsstring) :
  ~ Occurs placeholder t ->
  insert_name name 0 (t ++ placeholder ++ rest)
  = t ++ name ++ insert_name name 0 rest.
Proof.
  induction t as [|c t IH]; intros Hfree.
  - reflexivity.
  - apply not_Occurs_cons in Hfree as [E Hfree].
    cbn [app insert_name].
    destruct (starts_with placeholder (c :: t ++ placeholder ++ rest)) eqn:E'.
    + apply (placeholder_no_overlap (c :: t)) in E' as [E'|E']; congruence.
    + f_equal. now apply IH.
Qed.

Lemma first_occurrence (M : jsstring) :
  includes M placeholder = true ->
  exists t rest, M = t ++ placeholder ++ rest /\ ~ Occurs placeholder t.
Proof.
  induction M as [|c M IH]; intros H.
  - discriminate.
  - rewrite includes_unfold in H.
    destruct (starts_with placeholder (c :: M)) eqn:E.
    + apply starts_with_split in E as [rest ->]. exists [], rest.
      split; [reflexivity|]. rewrite <- includes_Occurs. discriminate.
    + cbn [orb] in H. destruct (IH H) as (t & rest & -> & Hfree).
      exists (c :: t), rest. split; [reflexivity|].
      rewrite <- includes_Occurs, includes_unfold. intros Hocc.
      apply orb_prop in Hocc as [Hocc|Hocc].
      * apply (starts_with_app_l _ _ (placeholder ++ rest)) in Hocc.
        cbn [app] in Hocc. congruence.
      * now apply Hfree, includes_Occurs.
Qed.

(** [spec_personalize] is the one text that has every occurrence replaced
    and nothing else changed. *)
Lemma Personalized_unique (name M out : jsstring) :
  Personalized name M out -> out = spec_personalize M name.
Proof.
  unfold spec_personalize.
  induction 1 as [t Hfree|t rest out Hfree _ IH].
  - symmetry. now apply insert_name_free.
  - rewrite insert_name_past_text by assumption. now rewrite IH.
Qed.

Lemma Personalized_spec (name M : jsstring) :
  Personalized name M (spec_personalize M name).
Proof.
  remember (length M) as n eqn:Hn. revert M Hn.
  induction n as [n IH] using lt_wf_ind. intros M ->.
  destruct (includes M placeholder) eqn:E.
  - destruct (first_occurrence M E) as (t & rest & -> & Hfree).
    unfold spec_personalize. rewrite insert_name_past_text by assumption.
    constructor; [assumption|].
    apply (IH (length rest)); [|reflexivity].
    rewrite !length_app. vm_compute (length placeholder). lia.
  - assert (Hfree : ~ Occurs placeholder M).
    { rewrite <- includes_Occurs. congruence. }
    unfold spec_personalize. rewrite insert_name_free by assumption.
    now constructor.
Qed.

(** C1 where it holds: for a name without [$], [personalizeMessage]
    replaces every occurrence of the placeholder by the name and changes
    nothing else. *)
Lemma personalizeMessage_replaces_every_occurrence (M N : jsstring) :
  forallb (fun c => negb (c =? dollar)%N) N = true ->
  Personalized N M (personalizeMessage M N).
Proof.
  intros H. rewrite personalizeMessage_literal by assumption.
  apply Personalized_spec.
Qed.

(** C6.  A message in which [{name}] does not occur is returned as it is,
    for every name. *)
Theorem personalizeMessage_no_placeholder (M N : jsstring) :
  ~ Occurs placeholder M -> personalizeMessage M N = M.
Proof.
  intros H. rewrite personalizeMessage_scan. apply replace_scan_no_match.
  apply not_true_iff_false. now rewrite includes_Occurs.
Qed.

Lemma personalizeMessage_no_placeholder_witness :
  ~ Occurs placeholder (str "Thank you for coming!")
  /\ personalizeMessage (str "Thank you for coming!") (str "$&") = str "Thank you for coming!".
Proof.
  assert (H : ~ Occurs placeholder (str "Thank you for coming!")).
  { rewrite <- includes_Occurs. vm_compute. discriminate. }
  split; [exact H|].
  apply (personalizeMessage_no_placeholder (str "Thank you for coming!") (str "$&") H).
Defined.

(** C1 at a name that carries a replacement pattern.  The name [$&] passes
    [validateRecipientName]; [replace] reads it as "the matched text", so
    the placeholder is put back and the name never appears, where
    replacing the occurrence by the name gives [Dear $&, ...]. *)
Theorem personalizeMessage_dollar_pattern :
  let M := str "Dear {name}, thank you for coming!" in
  let N := str "$&" in
  Utils.isValid (Utils.validateRecipientName N) = true
  /\ personalizeMessage M N = M
  /\ Personalized N M (str "Dear $&, thank you for coming!")
  /\ ~ Personalized N M (personalizeMessage M N).
Proof.
  intros M N. split; [reflexivity|]. split; [reflexivity|]. split.
  - assert (E : str "Dear $&, thank you for coming!" = spec_personalize M N)
      by reflexivity.
    rewrite E. apply Personalized_spec.
  - intros H. apply Personalized_unique in H. vm_compute in H. discriminate H.
Qed.

(** *** Idempotence *)

Lemma placeholder_tails_closed (u : jsstring) :
  In u placeholder_tails ->
  exists x u', u = x :: u' /\ (u' = [] \/ In u' placeholder_tails).
Proof.
  unfold placeholder_tails. cbn [In].
  intros [<-|[<-|[<-|[<-|[<-|[]]]]]]; eexists _, _;
    (split; [reflexivity|]); cbn [In]; tauto.
Qed.

Lemma starts_with_app_cases (u N R : jsstring) :
  starts_with u (N ++ R) = true ->
  starts_with u N = true \/ starts_with N u = true.
Proof.
  revert N; induction u as [|a u IH]; intros N H; [now left|].
  destruct N as [|n N]; [now right|].
  cbn [app starts_with] in *. apply andb_prop in H as [Han H].
  rewrite Han. apply N.eqb_eq in Han; subst n. rewrite N.eqb_refl.
  now apply IH.
Qed.

Lemma endsWith_app (Y X : jsstring) : endsWith (Y ++ X) X = true.
Proof. unfold endsWith. rewrite rev_app_distr. apply starts_with_app. Qed.

Lemma overlaps_inside (N : jsstring) :
  Occurs N placeholder -> overlaps_placeholder N = true.
Proof.
  intros H. apply includes_Occurs in H. unfold overlaps_placeholder. now rewrite H.
Qed.

Lemma overlaps_around (N : jsstring) :
  Occurs placeholder N -> overlaps_placeholder N = true.
Proof.
  intros H. apply includes_Occurs in H. unfold overlaps_placeholder.
  now rewrite H, orb_true_r.
Qed.

Lemma overlaps_at_end (N : jsstring) (k : nat) :
  In k [1; 2; 3; 4; 5] -> endsWith N (firstn k placeholder) = true ->
  overlaps_placeholder N = true.
Proof.
  intros Hk H. unfold overlaps_placeholder.
  apply orb_true_iff. right. apply existsb_exists. exists k.
  split; [assumption|]. now rewrite H.
Qed.

Lemma overlaps_at_start (N : jsstring) (k : nat) :
  In k [1; 2; 3; 4; 5] -> starts_with (skipn k placeholder) N = true ->
  overlaps_placeholder N = true.
Proof.
  intros Hk H. unfold overlaps_placeholder.
  apply orb_true_iff. right. apply existsb_exists. exists k.
  split; [assumption|]. rewrite H. apply orb_true_r.
Qed.

Lemma placeholder_tails_index (u : jsstring) :
  In u placeholder_tails -> exists k, In k [1; 2; 3; 4; 5] /\ u = skipn k placeholder.
Proof.
  unfold placeholder_tails. cbn [In].
  intros [<-|[<-|[<-|[<-|[<-|[]]]]]];
    [exists 1|exists 2|exists 3|exists 4|exists 5]; (split; [cbn [In]; tauto|reflexivity]).
Qed.

(** A name that cannot overlap the placeholder cannot begin the rest of
    one. *)
Lemma not_overlapping_breaks_tail (N u R : jsstring) :
  overlaps_placeholder N = false -> In u placeholder_tails ->
  starts_with u (N ++ R) = false.
Proof.
  intros Hp Hu. apply not_true_iff_false. intros E.
  apply placeholder_tails_index in Hu as (k & Hk & ->).
  apply starts_with_app_cases in E as [E|E].
  - rewrite (overlaps_at_start N k Hk E) in Hp. discriminate.
  - apply starts_with_split in E as [rest E].
    rewrite overlaps_inside in Hp; [discriminate|].
    exists (firstn k placeholder), rest.
    now rewrite <- E, firstn_skipn.
Qed.

(** Nor can an occurrence begin inside such a name. *)
Lemma not_overlapping_no_start (N R : jsstring) :
  overlaps_placeholder N = false ->
  forall X Y, N = Y ++ X ->
    includes (X ++ R) placeholder = includes R placeholder.
Proof.
  intros Hp. induction X as [|x X IH]; intros Y HN; [reflexivity|].
  cbn [app]. rewrite includes_unfold.
  rewrite (IH (Y ++ [x])) by now rewrite <- app_assoc.
  destruct (starts_with placeholder (x :: X ++ R)) eqn:E; [exfalso|reflexivity].
  apply (starts_with_app_cases placeholder (x :: X) R) in E as [E|E].
  - rewrite overlaps_around in Hp; [discriminate|].
    apply starts_with_split in E as [rest E].
    exists Y, rest. now rewrite HN, E.
  - apply starts_with_split in E as [rest E].
    assert (Hlen : length (x :: X) + length rest = 6).
    { rewrite <- length_app, <- E. reflexivity. }
    assert (HX : x :: X = firstn (length (x :: X)) placeholder).
    { rewrite E. now rewrite firstn_app, Nat.sub_diag, firstn_all, firstn_O, app_nil_r. }
    destruct (decide (length (x :: X) = 6)) as [H6|H6].
    + rewrite overlaps_around in Hp; [discriminate|].
      exists Y, []. rewrite app_nil_r, HN. f_equal.
      rewrite HX, H6. reflexivity.
    + rewrite (overlaps_at_end N (length (x :: X))) in Hp; [discriminate| |].
      * cbn [length] in *. cbn [In]. lia.
      * rewrite <- HX, HN. apply endsWith_app.
Qed.

Lemma plain_name_parts (N : jsstring) :
  plain_name N = true ->
  forallb (fun c => negb (c =? dollar)%N) N = true
  /\ overlaps_placeholder N = false.
Proof.
  unfold plain_name. intros H.
  apply andb_prop in H as [H Hover]. apply andb_prop in H as [_ Hdollar].
  split; [exact Hdollar|now apply negb_true_iff].
Qed.

(** What follows a [{] in the personalized text followed it in the
    message already. *)
Lemma tail_through_insert (N : jsstring) :
  overlaps_placeholder N = false ->
  forall r u, u = [] \/ In u placeholder_tails ->
    starts_with u (insert_name N 0 r) = true -> starts_with u r = true.
Proof.
  intros Hp. induction r as [|d r IH]; intros u Hu H.
  - exact H.
  - destruct Hu as [->|Hu]; [reflexivity|].
    cbn [insert_name] in H.
    destruct (starts_with placeholder (d :: r)) eqn:Em.
    + rewrite not_overlapping_breaks_tail in H by assumption. discriminate.
    + destruct (placeholder_tails_closed u Hu) as (x & u' & -> & Hu').
      cbn [starts_with] in *. apply andb_prop in H as [Hx H].
      rewrite Hx. now apply IH.
Qed.

(** Putting such a name in leaves no placeholder behind. *)
Lemma insert_name_no_placeholder (N : jsstring) :
  overlaps_placeholder N = false ->
  forall rest skip, includes (insert_name N skip rest) placeholder = false.
Proof.
  intros Hp. induction rest as [|c rest IH]; intros skip.
  - reflexivity.
  - cbn [insert_name]. destruct skip as [|k]; [|apply IH].
    destruct (starts_with placeholder (c :: rest)) eqn:Em.
    + rewrite (not_overlapping_no_start N _ Hp N []) by reflexivity. apply IH.
    + rewrite includes_unfold, IH, orb_false_r.
      rewrite starts_with_placeholder in *.
      destruct (cu "{" =? c)%N; [|reflexivity].
      cbn [andb] in *. apply not_true_iff_false. intros H.
      apply (tail_through_insert N Hp) in H; [congruence|].
      right. unfold placeholder_tails. cbn [In]. tauto.
Qed.

(** C10, as the code has it.  For a plain name, personalizing twice is
    personalizing once.  A plain name is not empty, has no [$], is not a
    piece of [{name}] and has no [{name}] in it, does not end with [{],
    [{n], [{na], [{nam] or [{name] and does not begin with [}], [e}],
    [me}], [ame}] or [name}]. *)
Theorem personalizeMessage_idempotent (M N : jsstring) :
  plain_name N = true ->
  personalizeMessage (personalizeMessage M N) N = personalizeMessage M N.
Proof.
  intros Hp. apply plain_name_parts in Hp as [Hdollar Hover].
  rewrite (personalizeMessage_scan (personalizeMessage M N)).
  apply replace_scan_no_match.
  rewrite personalizeMessage_literal by assumption.
  now apply insert_name_no_placeholder.
Qed.

Lemma personalizeMessage_idempotent_witness :
  plain_name (str "Alice") = true
  /\ personalizeMessage (personalizeMessage (str "Dear {name}!") (str "Alice")) (str "Alice")
     = personalizeMessage (str "Dear {name}!") (str "Alice").
Proof.
  split; [reflexivity|].
  apply (personalizeMessage_idempotent (str "Dear {name}!") (str "Alice")).
  reflexivity.
Defined.

(** C10 as stated fails: the name [a] is a valid recipient name with
    neither [{name}] nor [$] in it, and it completes the broken
    placeholder of the valid message [{n{name}me}], so the second pass
    finds a placeholder that the first one made. *)
Lemma personalizeMessage_not_idempotent :
  let M := str "{n{name}me}" in
  let N := str "a" in
  Utils.isValid (Utils.validateMessage M) = true
  /\ Utils.isValid (Utils.validateRecipientName N) = true
  /\ ~ Occurs placeholder N
  /\ ~ In dollar N
  /\ personalizeMessage M N = str "{name}"
  /\ personalizeMessage (personalizeMessage M N) N = str "a"
  /\ personalizeMessage (personalizeMessage M N) N <> personalizeMessage M N.
Proof.
  intros M N. split; [reflexivity|]. split; [reflexivity|]. split.
  { rewrite <- includes_Occurs. discriminate. }
  split.
  { intros [H|[]]. discriminate H. }
  split; [reflexivity|]. split; [reflexivity|].
  vm_compute. discriminate.
Qed.

(** Each way of overlapping the placeholder breaks idempotence for some
    message: a name that ends with a beginning of it, and one that begins
    with an end of it. *)
Example overlapping_names :
  (plain_name (str "x{na") = false
   /\ personalizeMessage (str "{name}me}!") (str "x{na") = str "x{name}!"
   /\ personalizeMessage (str "x{name}!") (str "x{na") = str "xx{na!")
  /\ (plain_name (str "e}x") = false
      /\ personalizeMessage (str "{nam{name}") (str "e}x") = str "{name}x"
      /\ personalizeMessage (str "{name}x") (str "e}x") = str "e}xx")
  /\ plain_name (str "Anne-Marie {Ami}") = true.
Proof. vm_compute. repeat split. Qed.

End Personalization.

(** ** Loading a card *)

Section Loading.

Import Browser CardViewer.

(** C4.  A card id that fails the format check makes [loadCard] throw as
    its first and only step: the program is a bare [throw], so run in any
    world it leaves the world as it was, with nothing sent. *)
Theorem loadCard_rejects_malformed_id (cardId : jsstring) (recipientName : option jsstring) :
  Regex.test Utils.re_identifier cardId = false ->
  exists e : JsError,
    loadCard (Some cardId) recipientName = Throw e
    /\ (e = Error (str "No card ID provided")
        \/ e = Error (str "Invalid card ID format"))
    /\ forall (B : Type) (serve : B -> Request -> B * FetchResult) (w : World B),
         exec serve (loadCard (Some cardId) recipientName) w = (w, inl e).
Proof.
  intros Hformat. unfold loadCard.
  destruct cardId as [|c cardId].
  - eexists. split; [reflexivity|]. split; [now left|reflexivity].
  - cbn [truthy_opt truthy isEmpty negb default from_option id].
    rewrite Hformat. eexists. split; [reflexivity|]. split; [now right|reflexivity].
Qed.

Lemma loadCard_rejects_malformed_id_witness :
  Regex.test Utils.re_identifier (str "abc 123!") = false
  /\ exists e : JsError,
       loadCard (Some (str "abc 123!")) (Some (str "Alice")) = Throw e
       /\ (e = Error (str "No card ID provided")
           \/ e = Error (str "Invalid card ID format"))
       /\ forall (B : Type) (serve : B -> Request -> B * FetchResult) (w : World B),
            exec serve (loadCard (Some (str "abc 123!")) (Some (str "Alice"))) w
            = (w, inl e).
Proof.
  split; [reflexivity|].
  apply (loadCard_rejects_malformed_id (str "abc 123!") (Some (str "Alice"))).
  reflexivity.
Defined.

(** Without a card id at all ([null] or the empty string) nothing is sent
    either. *)
Lemma loadCard_without_id (recipientName : option jsstring) :
  loadCard None recipientName = Throw (Error (str "No card ID provided")).
Proof. reflexivity. Qed.

End Loading.


(** ** Running programs *)

Section Execution.

Import Browser Utils.

Context {B : Type} (serve : B -> Request -> B * FetchResult).

Lemma exec_bind {A C : Type} (m : Prog A) (f : A -> Prog C) (w : World B) :
  exec serve (bind m f) w =
  match exec serve m w with
  | (w1, inl e) => (w1, inl e)
  | (w1, inr a) => exec serve (f a) w1
  end.
Proof.
  revert w.
  induction m as [a|e|k IH|req k IH|key k IH|key k IH|k IH|href k IH|op k IH|url k IH|k IH];
    intros w; cbn [bind exec]; auto.
  destruct (send serve req w) as [w1 r]. apply IH.
Qed.

Lemma exec_catch {A : Type} (m : Prog A) (handler : JsError -> Prog A) (w : World B) :
  exec serve (catch m handler) w =
  match exec serve m w with
  | (w1, inl e) => exec serve (handler e) w1
  | (w1, inr a) => (w1, inr a)
  end.
Proof.
  revert w.
  induction m as [a|e|k IH|req k IH|key k IH|key k IH|k IH|href k IH|op k IH|url k IH|k IH];
    intros w; cbn [catch exec]; auto.
  destruct (send serve req w) as [w1 r]. apply IH.
Qed.

(** Sending a request touches the network and the backend only. *)
Lemma send_spec (req : Request) (w : World B) :
  let '(w1, r) := send serve req w in
  localStorage w1 = localStorage w
  /\ page w1 = page w
  /\ sent w1 = sent w ++ [req]
  /\ serve (backend w) req = (backend w1, r).
Proof.
  unfold send. destruct (serve (backend w) req) as [b r]. now cbn.
Qed.

(** *** [makeRequest] and the session *)

Lemma exec_raise_for_status (st : N) (errorMessage : jsstring) (w : World B) :
  let '(w', outcome) := exec serve (raise_for_status st errorMessage) w in
  sent w' = sent w /\
  if (st =? 401)%N
  then localStorage w' = session_cleared (localStorage w)
       /\ outcome = inl (Error (str "Session expired. Please log in again."))
  else localStorage w' = localStorage w
       /\ exists m, outcome = inl (Error m).
Proof.
  unfold raise_for_status.
  destruct (st =? 401)%N.
  - unfold mbind, Prog_bind. cbn [bind removeItem exec].
    destruct (negb (JsString.eqb (pathname _) (str "/index.html")) && _); now cbn.
  - repeat match goal with |- context [if ?c then _ else _] => destruct c end;
      cbn; eauto.
Qed.

(** Working out the error message has no effect and cannot fail. *)
Lemma error_message_pure (r : Response) (fallback : jsstring) :
  exists m : jsstring,
    catch
      (bind (json r) (fun errorData =>
         bind (detail_or_message errorData) (fun found =>
           Ret (default fallback (or_else found (Some fallback))))))
      (fun parseError =>
         Ret (default fallback (or_else (Some (statusText r)) (Some fallback))))
    = Ret m.
Proof.
  unfold json. destruct (body r) as [[| | |]|]; cbn; eauto.
Qed.

(** The outer handler touches nothing, and an [Error] passes through it. *)
Lemma exec_rethrow (e : JsError) (w : World B) :
  let '(w', outcome) := exec serve (rethrow e) w in
  w' = w /\ (err_name e = str "Error" -> outcome = inl e).
Proof.
  unfold rethrow.
  destruct (JsString.eqb (err_name e) (str "TypeError")) eqn:Hname; cbn [andb].
  - destruct (includes (err_message e) (str "fetch")); cbn [exec];
      (split; [reflexivity|]); intros E; rewrite E in Hname; discriminate Hname.
  - now cbn [exec].
Qed.

Lemma ok_not_401 (r : Response) : ok r = true -> (status r =? 401)%N = false.
Proof.
  unfold ok. intros H. apply andb_prop in H as [_ H].
  apply N.leb_le in H. apply N.eqb_neq. lia.
Qed.

(** C8.  [makeRequest] sends one request.  When the response has status
    401 the three session entries are gone from [localStorage] by the time
    the "Session expired" error reaches the caller; after a response with
    any other status, and after a request that got no response, the
    storage is as it was. *)
Theorem makeRequest_clears_session_on_401 (w : World B) (url : Url) (options : Options) :
  let req := mergedOptions (localStorage w !! str "authToken") url options in
  let '(w', outcome) := exec serve (makeRequest url options) w in
  sent w' = sent w ++ [req] /\
  match (serve (backend w) req).2 with
  | Responded r =>
      if (status r =? 401)%N
      then localStorage w' = session_cleared (localStorage w)
           /\ outcome = inl (Error (str "Session expired. Please log in again."))
      else localStorage w' = localStorage w
  | Rejected _ => localStorage w' = localStorage w
  end.
Proof.
  intros req. unfold makeRequest, mbind, Prog_bind, mret, Prog_ret.
  rewrite exec_bind. cbn [getItem exec]. rewrite exec_catch, exec_bind.
  cbn [fetch exec]. fold req.
  pose proof (send_spec req w) as Hsend.
  destruct (send serve req w) as [w1 fr].
  destruct Hsend as (Hls & _ & Hsent & Hserve). rewrite Hserve. cbn [snd].
  destruct fr as [e|r]; cbn [exec].
  - pose proof (exec_rethrow e w1) as Hre.
    destruct (exec serve (rethrow e) w1) as [w2 out].
    destruct Hre as [-> _]. now split.
  - destruct (ok r) eqn:Hok; cbn [negb].
    + rewrite (ok_not_401 r Hok). unfold json.
      destruct (body r); cbn [exec]; [now split|].
      match goal with |- context [exec serve (rethrow ?e) w1] =>
        pose proof (exec_rethrow e w1) as Hre;
        destruct (exec serve (rethrow e) w1) as [w2 out]
      end.
      destruct Hre as [-> _]. now split.
    + rewrite exec_bind.
      destruct (error_message_pure r
                  (str "HTTP error! status: " ++ decimal (N.to_nat (status r))))
        as [m Hm].
      unfold jsstring in *. rewrite Hm. cbn [exec].
      pose proof (exec_raise_for_status (status r) m w1) as Hraise.
      destruct (exec serve (raise_for_status (status r) m) w1) as [w2 out].
      destruct Hraise as (Hsent2 & Hraise). rewrite <- Hsent, <- Hls, <- Hsent2.
      assert (Hout : exists m', out = inl (Error m')).
      { destruct (status r =? 401)%N; destruct Hraise as [_ Hout]; eauto. }
      destruct Hout as [m' ->].
      pose proof (exec_rethrow (Error m') w2) as Hre.
      destruct (exec serve (rethrow (Error m')) w2) as [w3 out].
      destruct Hre as [-> Hre]. rewrite (Hre eq_refl). split; [reflexivity|].
      destruct (status r =? 401)%N; [|tauto].
      destruct Hraise as [Hcleared Hout]. split; [assumption|].
      now injection Hout as ->.
Qed.

(** The entries [makeRequest] clears are the session's, and only they. *)
Lemma session_cleared_lookup (storage : gmap jsstring jsstring) (key : jsstring) :
  session_cleared storage !! key =
  if bool_decide (key ∈ [str "authToken"; str "userId"; str "username"])
  then None else storage !! key.
Proof.
  unfold session_cleared. case_bool_decide as Hkey.
  - rewrite !elem_of_cons in Hkey.
    destruct Hkey as [->|[->|[->|Hkey]]].
    + rewrite lookup_delete_ne by (vm_compute; discriminate).
      rewrite lookup_delete_ne by (vm_compute; discriminate).
      apply lookup_delete_eq.
    + rewrite lookup_delete_ne by (vm_compute; discriminate).
      apply lookup_delete_eq.
    + apply lookup_delete_eq.
    + now apply elem_of_nil in Hkey.
  - rewrite !not_elem_of_cons in Hkey. destruct Hkey as (H1 & H2 & H3 & _).
    now rewrite !lookup_delete_ne by congruence.
Qed.

End Execution.

(** A session that meets a 401: the three entries go, the other stays,
    and the page is sent to the login page. *)
Example expired_session :
  let storage : gmap jsstring jsstring :=
    {[str "authToken" := str "t0k3n"; str "userId" := str "42";
      str "username" := str "asha"; str "theme" := str "dark"]} in
  let w := Browser.mkWorld storage true (str "/dashboard.html") false false [] [] [] tt in
  let unauthorized (b : unit) (_ : Browser.Request) :=
    (b, Browser.Responded (Browser.mkResponse 401 (str "Unauthorized") None)) in
  let '(w', outcome) :=
    Browser.exec unauthorized
      (Utils.makeRequest
         (Browser.mkUrl CardViewer.baseUrl [str "cards"; str "my-cards"] None)
         Utils.no_options) w in
  Browser.localStorage w' = {[str "theme" := str "dark"]}
  /\ Browser.navigations w' = [str "index.html"]
  /\ Browser.req_headers <$> Browser.sent w'
     = [{[str "Content-Type" := str "application/json";
          str "Authorization" := str "Bearer t0k3n"]}]
  /\ outcome = inl (Browser.Error (str "Session expired. Please log in again.")).
Proof. vm_compute. repeat split. Qed.


(** ** The card access protocol *)

Section Protocol.

Import Backend.

Variable sanitize : jsstring -> jsstring.

Lemma events_of_snoc (cid : jsstring) (evs : list ViewEvent) (ev : ViewEvent) :
  events_of cid (evs ++ [ev])
  = events_of cid evs ++ (if decide (card_id ev = cid) then [ev] else []).
Proof.
  unfold events_of. rewrite filter_app. reflexivity.
Qed.

Lemma consistent_empty : consistent empty_store.
Proof.
  split.
  - intros cid c H. cbn in H. now rewrite lookup_empty in H.
  - intros e [].
Qed.

(** The one write keeps the store consistent. *)
Lemma consistent_record_view (st : Store) (c : Card) (ev : ViewEvent) :
  consistent st -> cards st !! card_id ev = Some c ->
  consistent (record_view st c ev).
Proof.
  intros [Hcards Hevents] Hc.
  destruct (Hcards _ _ Hc) as [Hid Hcount].
  unfold record_view. rewrite Hid. split; cbn [cards events].
  - intros cid c' H. rewrite events_of_snoc, length_app.
    destruct (decide (card_id ev = cid)) as [<-|Hne].
    + rewrite lookup_insert_eq in H. injection H as <-.
      cbn [id view_count length]. split; [reflexivity|lia].
    + rewrite lookup_insert_ne in H by assumption.
      destruct (Hcards _ _ H) as [Hid' Hcount']. cbn [length]. split; [assumption|lia].
  - intros e He. apply in_app_or in He as [He|[<-|[]]].
    + destruct (decide (card_id ev = card_id e)) as [<-|Hne].
      * rewrite lookup_insert_eq. eauto.
      * rewrite lookup_insert_ne by assumption. now apply Hevents.
    + rewrite lookup_insert_eq. eauto.
Qed.

Lemma consistent_render (st : Store) (now : N) (ip : option jsstring)
    (cid : jsstring) (name : option jsstring) :
  consistent st -> consistent (render sanitize st now ip cid name).1.
Proof.
  intros Hst. unfold render.
  destruct (negb (valid_card_id cid)); [assumption|].
  destruct (negb (from_option valid_viewer_name true name)); [assumption|].
  destruct (cards st !! cid) as [c|] eqn:Hc; [|assumption].
  destruct name as [n|]; [|assumption].
  now apply consistent_record_view.
Qed.

Lemma resolve_audio_reads (st : Store) (cid : jsstring) (name : option jsstring) :
  (resolve_audio st cid name).1 = st.
Proof.
  unfold resolve_audio.
  destruct (negb (valid_card_id cid)); [reflexivity|].
  destruct (cards st !! cid) as [c|]; [|reflexivity].
  now destruct (ai_voice_path c).
Qed.

Lemma consistent_create_card (st : Store) (cid owner msg : jsstring) (now : N) :
  consistent st -> consistent (create_card st cid owner msg now).
Proof.
  intros [Hcards Hevents]. unfold create_card.
  destruct (valid_card_id cid && (10 <=? length msg) && (length msg <=? 1000)
            && bool_decide (cards st !! cid = None)) eqn:Hok;
    [|now split].
  apply andb_prop in Hok as [_ Hfresh]. apply bool_decide_eq_true in Hfresh.
  split; cbn [cards events].
  - intros cid' c H. destruct (decide (cid = cid')) as [<-|Hne].
    + rewrite lookup_insert_eq in H. injection H as <-.
      cbn [id view_count]. split; [reflexivity|].
      destruct (events_of cid (events st)) as [|e l] eqn:He; [reflexivity|].
      assert (Hin : e ∈ events_of cid (events st)) by (rewrite He; left).
      unfold events_of in Hin. apply list_elem_of_filter in Hin as [<- Hin].
      apply list_elem_of_In, Hevents in Hin as [c' Hc'].
      congruence.
    + rewrite lookup_insert_ne in H by assumption. now apply Hcards.
  - intros e He. destruct (decide (cid = card_id e)) as [<-|Hne].
    + rewrite lookup_insert_eq. eauto.
    + rewrite lookup_insert_ne by assumption. now apply Hevents.
Qed.

Lemma consistent_attach_voice (st : Store) (cid path : jsstring) :
  consistent st -> consistent (attach_voice st cid path).
Proof.
  intros [Hcards Hevents]. unfold attach_voice.
  destruct (cards st !! cid) as [c|] eqn:Hc; [|now split].
  split; cbn [cards events].
  - intros cid' c' H. destruct (decide (cid = cid')) as [<-|Hne].
    + rewrite lookup_insert_eq in H. injection H as <-.
      cbn [id view_count]. now apply Hcards.
    + rewrite lookup_insert_ne in H by assumption. now apply Hcards.
  - intros e He. destruct (decide (cid = card_id e)) as [<-|Hne].
    + rewrite lookup_insert_eq. eauto.
    + rewrite lookup_insert_ne by assumption. now apply Hevents.
Qed.

Lemma consistent_step (st : Store) (o : Operation) :
  consistent st -> consistent (step sanitize st o).
Proof.
  intros Hst. destruct o; cbn [step].
  - now apply consistent_render.
  - now rewrite resolve_audio_reads.
  - now apply consistent_create_card.
  - now apply consistent_attach_voice.
  - assumption.
  - assumption.
Qed.

Lemma consistent_run (ops : list Operation) : consistent (run sanitize ops).
Proof.
  unfold run. generalize consistent_empty. generalize empty_store.
  induction ops as [|o ops IH]; intros st Hst; cbn [fold_left].
  - assumption.
  - apply IH. now apply consistent_step.
Qed.

(** C3.  After any history of operations of the protocol, the cached
    [view_count] of every card of the store is the number of View Events
    recorded for that card. *)
Theorem view_count_is_event_count (ops : list Operation) (cid : jsstring) (c : Card) :
  cards (run sanitize ops) !! cid = Some c ->
  view_count c = total_views (run sanitize ops) cid.
Proof.
  intros H. now apply (consistent_run ops).
Qed.

(** The counter and the event list move together: one operation either
    leaves both as they were for every card, or appends one event and adds
    one to the counter of its card. *)
Lemma step_counter_and_event_together (st : Store) (o : Operation) :
  let st' := step sanitize st o in
  (events st' = events st
   /\ forall cid c, cards st !! cid = Some c ->
        view_count <$> cards st' !! cid = Some (view_count c))
  \/ (exists ev c,
        cards st !! card_id ev = Some c
        /\ events st' = events st ++ [ev]
        /\ cards st' = <[id c := mkCard (id c) (owner_id c) (message c)
                                  (ai_voice_path c) (created_at c)
                                  (S (view_count c))]> (cards st)).
Proof.
  assert (Hsame : forall st0 : Store,
             events st0 = events st0
             /\ forall cid c, cards st0 !! cid = Some c ->
                  view_count <$> cards st0 !! cid = Some (view_count c)).
  { intros st0. split; [reflexivity|]. intros cid c ->. reflexivity. }
  destruct o; cbn [step].
  - unfold render.
    destruct (negb (valid_card_id cid)); [left; apply Hsame|].
    destruct (negb (from_option valid_viewer_name true name)); [left; apply Hsame|].
    destruct (cards st !! cid) as [c|] eqn:Hc; [|left; apply Hsame].
    destruct name as [n|]; [|left; apply Hsame].
    right. eexists (mkViewEvent cid (sanitize n) now ip), c. now cbn.
  - rewrite resolve_audio_reads. left; apply Hsame.
  - left. unfold create_card.
    destruct (valid_card_id cid && (10 <=? length msg) && (length msg <=? 1000)
              && bool_decide (cards st !! cid = None)) eqn:Hok; [|apply Hsame].
    apply andb_prop in Hok as [_ Hfresh]. apply bool_decide_eq_true in Hfresh.
    split; [reflexivity|]. intros cid' c H. cbn [cards].
    rewrite lookup_insert_ne by congruence. now rewrite H.
  - left. unfold attach_voice.
    destruct (cards st !! cid) as [c|] eqn:Hc; [|apply Hsame].
    split; [reflexivity|]. intros cid' c' H. cbn [cards].
    destruct (decide (cid = cid')) as [<-|Hne].
    + rewrite lookup_insert_eq. cbn. congruence.
    + rewrite lookup_insert_ne by assumption. now rewrite H.
  - left; apply Hsame.
  - left; apply Hsame.
Qed.

(** What one rendering request appends to the View Events. *)
Lemma render_appends (st : Store) (now : N) (ip : option jsstring)
    (cid : jsstring) (name : option jsstring) :
  let '(st', result) := render sanitize st now ip cid name in
  events st' = events st ++
    match name, result with
    | Some n, inr _ => [mkViewEvent cid (sanitize n) now ip]
    | _, _ => []
    end.
Proof.
  unfold render.
  destruct (negb (valid_card_id cid)); [destruct name; now rewrite app_nil_r|].
  destruct (negb (from_option valid_viewer_name true name));
    [destruct name; now rewrite app_nil_r|].
  destruct (cards st !! cid) as [c|]; [|destruct name; now rewrite app_nil_r].
  destruct name as [n|]; [reflexivity|now rewrite app_nil_r].
Qed.

(** A request with a well-formed id of a card of the store, and with no
    name or a valid one, renders the card. *)
Lemma render_succeeds (st : Store) (now : N) (ip : option jsstring)
    (cid : jsstring) (name : option jsstring) :
  valid_card_id cid = true -> is_Some (cards st !! cid) ->
  from_option valid_viewer_name true name = true ->
  exists out, (render sanitize st now ip cid name).2 = inr out.
Proof.
  intros Hcid [c Hc] Hname. unfold render. rewrite Hcid, Hname, Hc.
  destruct name; cbn; eauto.
Qed.

(** C2.  One rendering request appends to the View Events exactly this:
    nothing when no viewer name came with it, nothing when it fails, and
    one event for the card and the viewer when it renders the card for a
    name.  A request with a well-formed id of a card of the store and a
    valid name does render. *)
Theorem render_records_views (st : Store) (now : N) (ip : option jsstring)
    (cid : jsstring) (name : option jsstring) :
  let '(st', result) := render sanitize st now ip cid name in
  events st' = events st ++
    match name, result with
    | Some n, inr _ => [mkViewEvent cid (sanitize n) now ip]
    | _, _ => []
    end
  /\ (valid_card_id cid = true -> is_Some (cards st !! cid) ->
      from_option valid_viewer_name true name = true ->
      exists out, result = inr out).
Proof.
  pose proof (render_appends st now ip cid name) as Hev.
  pose proof (render_succeeds st now ip cid name) as Hok.
  destruct (render sanitize st now ip cid name) as [st' result].
  split; [exact Hev|exact Hok].
Qed.

End Protocol.

(** ** One card request, end to end *)

Section CardRequest.

Import Browser CardViewer.

Context {B : Type} (serve : B -> Request -> B * FetchResult).

(** [loadCard] either throws before it reaches the network or sends one
    request and turns the answer into its result. *)
Lemma exec_loadCard (w : World B) (cardId recipientName : option jsstring) :
  exec serve (loadCard cardId recipientName) w =
  match loadCard_request (onLine w) cardId recipientName with
  | inl e => (w, inl e)
  | inr req => let '(w1, r) := send serve req w in (w1, loadCard_result r)
  end.
Proof.
  unfold loadCard, loadCard_request. rewrite exec_catch.
  destruct (truthy_opt cardId); cbn [negb]; [|reflexivity].
  destruct (Regex.test Utils.re_identifier (default [] cardId)); cbn [negb]; [|reflexivity].
  unfold mbind, Prog_bind. rewrite exec_bind.
  destruct (truthy_opt recipientName) eqn:Hname; cbn [andb].
  - destruct (Utils.isValid (Utils.validateRecipientName (default [] recipientName)));
      cbn [negb exec]; [|reflexivity].
    rewrite exec_bind. cbn [Utils.isOnline exec].
    destruct (onLine w); cbn [negb exec]; [|reflexivity].
    rewrite exec_bind, exec_bind. unfold encodeURIComponent.
    destruct (well_formed_utf16 (default [] recipientName)); cbn [exec]; [|reflexivity].
    rewrite exec_bind. cbn [fetch exec].
    destruct (send serve _ w) as [w1 [e|r]]; cbn [exec loadCard_result]; [reflexivity|].
    destruct (ok r); cbn [negb].
    + unfold json. now destruct (body r).
    + rewrite exec_bind, exec_catch, exec_bind. unfold json.
      destruct (body r) as [[| | |]|]; reflexivity.
  - cbn [exec]. rewrite exec_bind. cbn [Utils.isOnline exec].
    destruct (onLine w); cbn [negb exec]; [|reflexivity].
    rewrite exec_bind. cbn [exec]. rewrite exec_bind. cbn [fetch exec].
    destruct (send serve _ w) as [w1 [e|r]]; cbn [exec loadCard_result]; [reflexivity|].
    destruct (ok r); cbn [negb].
    + unfold json. now destruct (body r).
    + rewrite exec_bind, exec_catch, exec_bind. unfold json.
      destruct (body r) as [[| | |]|]; reflexivity.
Qed.

Lemma loadCard_request_sent (online : bool) (cardId recipientName : option jsstring)
    (req : Request) :
  loadCard_request online cardId recipientName = inr req ->
  exists cid,
    cardId = Some cid
    /\ req = mkRequest
               (mkUrl baseUrl [str "cards"; cid]
                  (if truthy_opt recipientName
                   then Some (str "recipient_name", default [] recipientName)
                   else None))
               (str "GET") {[str "Content-Type" := str "application/json"]} None.
Proof.
  unfold loadCard_request. intros H.
  destruct cardId as [cid|]; [|discriminate]. exists cid. split; [reflexivity|].
  repeat match type of H with
         | (if ?c then _ else _) = _ => destruct c; try discriminate
         end;
    now injection H as <-.
Qed.

End CardRequest.

Section CardRequestServed.

Import Browser CardViewer Backend.

Variable sanitize : jsstring -> jsstring.

Lemma error_response_not_ok (e : ProtocolError) : ok (error_response e) = false.
Proof. now destruct e. Qed.

(** What the server makes of a card request: it answers, and it has
    recorded a view when the answer is a card rendered for a name. *)
Lemma serve_card_request (sv : Server) (cid : jsstring)
    (query : option (jsstring * jsstring)) (method : jsstring)
    (headers : gmap jsstring jsstring) (content : option jsstring) :
  let '(sv', r) :=
    serve sanitize sv
      (mkRequest (mkUrl baseUrl [str "cards"; cid] query) method headers content) in
  exists response,
    r = Responded response
    /\ (ok response = true -> exists card, body response = Some (JsonCard card))
    /\ events (store sv') = events (store sv) ++
         (if ok response
          then match query with
               | Some (_, n) => [mkViewEvent cid (sanitize n) (time sv) None]
               | None => []
               end
          else []).
Proof.
  unfold serve. cbn [req_url url_path url_query].
  change (JsString.eqb (str "cards") (str "cards")) with true. cbn iota.
  pose proof (render_appends sanitize (store sv) (time sv) None cid (snd <$> query))
    as Hev.
  destruct (render sanitize (store sv) (time sv) None cid (snd <$> query)) as [st' result].
  cbn [store].
  destruct result as [e|out]; eexists; (split; [reflexivity|]).
  - rewrite error_response_not_ok. split; [discriminate|].
    rewrite Hev. now destruct query as [[key n]|].
  - cbn [ok status body]. split; [eauto|].
    rewrite Hev. now destruct query as [[key n]|].
Qed.

(** C2 seen from the viewer: one call of [loadCard] adds no View Event
    when it is given no name or fails, and one View Event for the card and
    the name when it returns the card. *)
Lemma loadCard_view_events (w : World Server) (cardId recipientName : option jsstring) :
  let '(w', outcome) := exec (serve sanitize) (loadCard cardId recipientName) w in
  events (store (backend w')) = events (store (backend w)) ++
    match cardId, recipientName, outcome with
    | Some cid, Some n, inr _ =>
        if truthy n
        then [mkViewEvent cid (sanitize n) (time (backend w)) None]
        else []
    | _, _, _ => []
    end.
Proof.
  rewrite exec_loadCard.
  destruct (loadCard_request (onLine w) cardId recipientName) as [e|req] eqn:Hreq.
  - destruct cardId, recipientName; now rewrite app_nil_r.
  - apply loadCard_request_sent in Hreq as (cid & -> & ->).
    unfold send.
    match goal with |- context [serve sanitize (backend w) ?r] =>
      pose proof (serve_card_request (backend w) cid (url_query (req_url r))
                    (req_method r) (req_headers r) (req_body r)) as Hs;
      cbn [url_query req_url req_method req_headers req_body] in Hs;
      destruct (serve sanitize (backend w) r) as [sv' fr]
    end.
    destruct Hs as (response & -> & Hcard & Hev). cbn [backend loadCard_result].
    rewrite Hev. destruct (ok response) eqn:Hok.
    + destruct (Hcard eq_refl) as [card ->].
      destruct recipientName as [n|]; cbn [truthy_opt]; [|reflexivity].
      now destruct (truthy n).
    + destruct recipientName; now rewrite app_nil_r.
Qed.

End CardRequestServed.

(** ** A card without a voice *)

Section NoVoice.

Import Browser CardViewer.

(** C9.  For a card whose [ai_voice_path] is [null], the page shows the
    "available soon" label and the note, raises no error and asks the
    network for nothing, so the backend is as it was; and the audio
    endpoint answers such a card with the "not yet available" result and
    writes nothing. *)
Theorem no_voice_is_not_an_error {B : Type} (serve : B -> Request -> B * FetchResult)
    (w : World B) (cardId : option jsstring) (card : Json) (recipientName : jsstring)
    (st : Backend.Store) (cid : jsstring) (name : option jsstring) (c : Backend.Card) :
  card_ai_voice_path card = None ->
  Backend.valid_card_id cid = true ->
  Backend.cards st !! cid = Some c ->
  Backend.ai_voice_path c = None ->
  (let '(w', outcome) :=
     exec serve (show_audio cardId (card_ai_voice_path card) recipientName) w in
   outcome = inr tt
   /\ page w' = page w ++ [SetAudioLabel LabelAvailableSoon;
                           AudioElementDisplay false; AudioNote]
   /\ sent w' = sent w
   /\ backend w' = backend w)
  /\ Backend.resolve_audio st cid name = (st, inr Backend.NotYetAvailable).
Proof.
  intros Hcard Hcid Hc Hvoice. split.
  - rewrite Hcard. cbn. now rewrite <- !app_assoc.
  - unfold Backend.resolve_audio. now rewrite Hcid, Hc, Hvoice.
Qed.

End NoVoice.

(** ** The scenario, run *)

Section Scenario.

Import Browser CardViewer.

Lemma no_voice_is_not_an_error_witness :
  let card := JsonCard (mkCardData (str "Dear Alice, thank you for coming!") None) in
  card_ai_voice_path card = None
  /\ Backend.valid_card_id (str "abc123") = true
  /\ Backend.cards scenario_store !! str "abc123" = Some scenario_card
  /\ Backend.ai_voice_path scenario_card = None
  /\ (let '(w', outcome) :=
        exec (Backend.serve (fun n => n))
          (show_audio (Some (str "abc123")) (card_ai_voice_path card) (str "Alice"))
          scenario_world in
      outcome = inr tt
      /\ page w' = page scenario_world ++ [SetAudioLabel LabelAvailableSoon;
                                           AudioElementDisplay false; AudioNote]
      /\ sent w' = sent scenario_world
      /\ backend w' = backend scenario_world)
  /\ Backend.resolve_audio scenario_store (str "abc123") (Some (str "Alice"))
     = (scenario_store, inr Backend.NotYetAvailable).
Proof.
  intros card.
  assert (H1 : card_ai_voice_path card = None) by reflexivity.
  assert (H2 : Backend.valid_card_id (str "abc123") = true) by reflexivity.
  assert (H3 : Backend.cards scenario_store !! str "abc123" = Some scenario_card)
    by reflexivity.
  assert (H4 : Backend.ai_voice_path scenario_card = None) by reflexivity.
  repeat (split; [assumption|]).
  exact (no_voice_is_not_an_error (Backend.serve (fun n => n)) scenario_world
           (Some (str "abc123")) card (str "Alice") scenario_store (str "abc123")
           (Some (str "Alice")) scenario_card H1 H2 H3 H4).
Defined.

Lemma view_count_is_event_count_witness :
  let ops := [Backend.OpCreate (str "abc123") (str "owner1")
                (str "Dear {name}, thank you for coming!") 7;
              Backend.OpRender 100 None (str "abc123") (Some (str "Alice"));
              Backend.OpAudio (str "abc123") (Some (str "Alice"));
              Backend.OpRender 101 None (str "abc123") None] in
  let c := Backend.mkCard (str "abc123") (str "owner1")
             (str "Dear {name}, thank you for coming!") None 7 1 in
  Backend.cards (Backend.run (fun n => n) ops) !! str "abc123" = Some c
  /\ Backend.view_count c = Backend.total_views (Backend.run (fun n => n) ops) (str "abc123").
Proof.
  intros ops c.
  assert (H : Backend.cards (Backend.run (fun n => n) ops) !! str "abc123" = Some c)
    by (vm_compute; reflexivity).
  split; [exact H|].
  exact (view_count_is_event_count (fun n => n) ops (str "abc123") c H).
Defined.

(** Alice submits her name: the page shows her message and the note about
    the voice, one request went out, and the store holds one View Event
    for her with the counter at one. *)
Example alice_opens_the_card :
  let '(w', outcome) :=
    exec (Backend.serve (fun n => n))
      (nameForm_submit (Some (str "abc123")) (str "  Alice ")) scenario_world in
  outcome = inr tt
  /\ page w' = [SubmitButtonLoading;
                PersonalizedMessageHTML (str "Dear Alice, thank you for coming!");
                HideNameInput; ShowCardDisplay;
                SetAudioLabel LabelAvailableSoon; AudioElementDisplay false; AudioNote]
  /\ length (sent w') = 1
  /\ Backend.events (Backend.store (backend w'))
     = [Backend.mkViewEvent (str "abc123") (str "Alice") 100 None]
  /\ Backend.view_count <$> Backend.cards (Backend.store (backend w')) !! str "abc123"
     = Some 1.
Proof.
  vm_compute. repeat split.
Qed.

End Scenario.

(* ===================================================================== *)
(** * Part III: further properties of the code *)
(* ===================================================================== *)

(** ** The form validators of utils.js *)

Section FormValidators.

Import Regex Utils UtilsRest.

Lemma search_class (p : code_unit -> bool) (s : jsstring) :
  search match_here (Class p) s = true <-> existsb p s = true.
Proof.
  rewrite search_Lang, existsb_exists. split.
  - intros (pre & m & post & -> & H). inversion H as [|? c Hc| | | | |]; subst.
    exists c. split; [|assumption]. apply in_or_app. right. now left.
  - intros (c & Hin & Hc). apply in_split in Hin as (pre & post & ->).
    exists pre, [c], post. split; [reflexivity|now constructor].
Qed.

(** X1.  [validateUsername] accepts exactly the strings of 3 to 50
    letters, digits, underscores and hyphens; it does not trim. *)
Theorem validateUsername_accepts (S : jsstring) :
  isValid (validateUsername S) = true <->
  3 <= length S <= 50 /\ forallb identifier_char S = true.
Proof.
  unfold validateUsername. cbn [isValid].
  destruct S as [|c S].
  - cbn. split; [discriminate|lia].
  - cbn [isEmpty]. rewrite pushed_none, negb_involutive.
    rewrite !andb_true_iff, !negb_true_iff, !Nat.ltb_ge.
    rewrite test_re_identifier. unfold identifier_char.
    split.
    + intros [[H1 H2] [_ H3]]. repeat split; assumption.
    + intros [[H1 H2] H3]. repeat split; (assumption || discriminate).
Qed.

(** X2.  [validatePassword] accepts exactly the strings of 6 to 128 code
    units with an ASCII letter among them. *)
Theorem validatePassword_accepts (S : jsstring) :
  isValid (validatePassword S) = true <->
  6 <= length S <= 128 /\ existsb ascii_letter S = true.
Proof.
  unfold validatePassword. cbn [isValid].
  destruct S as [|c S].
  - cbn. split; [discriminate|lia].
  - cbn [isEmpty]. rewrite pushed_none, negb_involutive.
    rewrite !andb_true_iff, !negb_true_iff, !Nat.ltb_ge. unfold test, re_letter.
    cbn [anchored_start anchored_end body]. rewrite search_class.
    unfold ascii_letter. tauto.
Qed.

End FormValidators.
(** ** The e-mail pattern *)

Section Email.

Import Regex UtilsRest.

Lemma Lang_chr (a : ascii) (m : jsstring) : Lang (chr a) m <-> m = [cu a].
Proof.
  unfold chr. split.
  - inversion 1 as [|? c Hc| | | | |]; subst. apply N.eqb_eq in Hc. now subst.
  - intros ->. constructor. apply N.eqb_refl.
Qed.

(** X3.  [validateEmail] accepts exactly the strings of the shape
    [local@host.tld] whose three parts are non-empty and hold neither
    white space nor [@]. *)
Theorem validateEmail_accepts (S : jsstring) :
  validateEmail S = true <-> EmailShape S.
Proof.
  unfold validateEmail, test, emailRegex.
  cbn [anchored_start anchored_end body]. rewrite accepts_Lang. split.
  - intros H.
    inversion H as [| |? ? local r1 Hlocal H1| | | |]; subst; clear H.
    inversion H1 as [| |? ? at_sign r2 Hat H2| | | |]; subst; clear H1.
    inversion H2 as [| |? ? host r3 Hhost H3| | | |]; subst; clear H2.
    inversion H3 as [| |? ? dot tld Hdot Htld| | | |]; subst; clear H3.
    apply Lang_chr in Hat, Hdot. subst.
    apply Lang_plus_class in Hlocal as [? Hl], Hhost as [? Hh], Htld as [? Ht].
    exists local, host, tld. repeat split; try assumption.
    now rewrite !forallb_app, Hl, Hh, Ht.
  - intros (local & host & tld & -> & Hl & Hh & Ht & Hall).
    rewrite !forallb_app, !andb_true_iff in Hall. destruct Hall as (Cl & Ch & Ct).
    change (local ++ cu "@" :: host ++ cu "." :: tld)
      with (local ++ [cu "@"] ++ host ++ [cu "."] ++ tld).
    repeat constructor; try (now apply Lang_plus_class); now apply Lang_chr.
Qed.

(** An accepted address has exactly one [@], a dot after it, no white
    space and at least five code units. *)
Lemma EmailShape_facts (S : jsstring) :
  EmailShape S ->
  count_occ N.eq_dec S (cu "@") = 1
  /\ existsb is_js_whitespace S = false
  /\ 5 <= length S.
Proof.
  intros (local & host & tld & -> & Hl & Hh & Ht & Hall).
  rewrite !forallb_app, !andb_true_iff in Hall. destruct Hall as (Cl & Ch & Ct).
  assert (Hpart : forall part, forallb email_char part = true ->
            count_occ N.eq_dec part (cu "@") = 0
            /\ existsb is_js_whitespace part = false).
  { induction part as [|c part IH]; intros Hc; [now split|].
    cbn [forallb] in Hc. apply andb_prop in Hc as [Hc Hrest].
    destruct (IH Hrest) as [IH1 IH2].
    unfold email_char in Hc. apply negb_true_iff, orb_false_elim in Hc as [Hws Hat].
    apply N.eqb_neq in Hat. cbn [count_occ existsb].
    destruct (N.eq_dec c (cu "@")); [congruence|].
    now rewrite Hws, IH2. }
  destruct (Hpart _ Cl) as [L1 L2], (Hpart _ Ch) as [H1 H2], (Hpart _ Ct) as [T1 T2].
  repeat split.
  - rewrite count_occ_app. cbn [count_occ].
    destruct (N.eq_dec (cu "@") (cu "@")); [|congruence].
    rewrite count_occ_app. cbn [count_occ].
    destruct (N.eq_dec (cu ".") (cu "@")) as [E|_]; [discriminate E|].
    unfold code_unit in *. now rewrite L1, H1, T1.
  - rewrite existsb_app. cbn [existsb]. rewrite existsb_app. cbn [existsb].
    now rewrite L2, H2, T2.
  - rewrite length_app. cbn [length]. rewrite length_app. cbn [length].
    destruct local, host, tld; cbn [length]; try congruence; lia.
Qed.

End Email.

(** ** The HTML escape *)

Section Escape.

Import UtilsRest.

Lemma escape_unit_cases (c : code_unit) :
  (escape_unit c = [c]
   /\ c <> cu "&" /\ c <> 160%N /\ c <> cu "<" /\ c <> cu ">")
  \/ (c = cu "&" /\ escape_unit c = str "&amp;")
  \/ (c = 160%N /\ escape_unit c = str "&nbsp;")
  \/ (c = cu "<" /\ escape_unit c = str "&lt;")
  \/ (c = cu ">" /\ escape_unit c = str "&gt;").
Proof.
  unfold escape_unit.
  destruct (c =? cu "&")%N eqn:E1; [apply N.eqb_eq in E1; subst; tauto|].
  destruct (c =? 160)%N eqn:E2; [apply N.eqb_eq in E2; subst; tauto|].
  destruct (c =? cu "<")%N eqn:E3; [apply N.eqb_eq in E3; subst; tauto|].
  destruct (c =? cu ">")%N eqn:E4; [apply N.eqb_eq in E4; subst; tauto|].
  apply N.eqb_neq in E1, E2, E3, E4. tauto.
Qed.

(** X4.  What [sanitizeHtml] returns holds no [<] and no [>], so it has
    no markup in the sense of [validateRecipientName]. *)
Theorem sanitizeHtml_no_markup (s : jsstring) :
  ~ In (cu "<") (sanitizeHtml s)
  /\ ~ In (cu ">") (sanitizeHtml s)
  /\ Regex.test Utils.re_tag (sanitizeHtml s) = false.
Proof.
  assert (H : ~ In (cu "<") (sanitizeHtml s) /\ ~ In (cu ">") (sanitizeHtml s)).
  { unfold sanitizeHtml. induction s as [|c s [IH1 IH2]]; [cbn; tauto|].
    cbn [flat_map]. rewrite !in_app_iff.
    destruct (escape_unit_cases c) as [(-> & _ & _ & Hlt & Hgt)|Hc].
    - cbn [In]. split; intros [[E|[]]|E]; congruence.
    - assert (Hfree : ~ In (cu "<") (escape_unit c) /\ ~ In (cu ">") (escape_unit c)).
      { destruct Hc as [[_ ->]|[[_ ->]|[[_ ->]|[_ ->]]]];
          vm_compute; split; intros H;
          repeat (destruct H as [H|H]; [discriminate H|]); exact H. }
      tauto. }
  destruct H as [Hlt Hgt]. repeat split; [assumption..|].
  apply not_true_iff_false. rewrite test_re_tag.
  intros (pre & inner & post & E). apply Hlt. rewrite E.
  apply in_or_app. right. now left.
Qed.

(** Text without [&], [<], [>] and the no-break space comes back as it
    is. *)
Lemma sanitizeHtml_plain (s : jsstring) :
  forallb (fun c => negb (c =? cu "&")%N && negb (c =? 160)%N
                    && negb (c =? cu "<")%N && negb (c =? cu ">")%N) s = true ->
  sanitizeHtml s = s.
Proof.
  unfold sanitizeHtml. induction s as [|c s IH]; intros H; [reflexivity|].
  cbn [forallb] in H. apply andb_prop in H as [Hc H].
  rewrite !andb_true_iff, !negb_true_iff in Hc. destruct Hc as [[[H1 H2] H3] H4].
  cbn [flat_map]. unfold escape_unit. rewrite H1, H2, H3, H4.
  cbn [app]. f_equal. now apply IH.
Qed.

(** X5.  The escape loses nothing: two texts have the same escaped form
    only when they are the same text. *)
Theorem sanitizeHtml_injective (s t : jsstring) :
  sanitizeHtml s = sanitizeHtml t <-> s = t.
Proof.
  split; [|now intros ->].
  unfold sanitizeHtml. revert t.
  induction s as [|c s IH]; intros [|d t] H; cbn [flat_map] in H.
  - reflexivity.
  - exfalso.
    destruct (escape_unit_cases d) as [(E & _)|[[_ E]|[[_ E]|[[_ E]|[_ E]]]]];
      rewrite E in H; discriminate H.
  - exfalso.
    destruct (escape_unit_cases c) as [(E & _)|[[_ E]|[[_ E]|[[_ E]|[_ E]]]]];
      rewrite E in H; discriminate H.
  - assert (Hhead : c = d /\ flat_map escape_unit s = flat_map escape_unit t).
    { destruct (escape_unit_cases c)
        as [(Ec & Nc1 & Nc2 & Nc3 & Nc4)|[[-> Ec]|[[-> Ec]|[[-> Ec]|[-> Ec]]]]];
      destruct (escape_unit_cases d)
        as [(Ed & Nd1 & Nd2 & Nd3 & Nd4)|[[-> Ed]|[[-> Ed]|[[-> Ed]|[-> Ed]]]]];
      rewrite Ec in H; rewrite ?Ed in H;
      first
        [ apply app_inv_head in H; now split
        | vm_compute str in H; cbn [app] in H; discriminate H
        | vm_compute str in H; cbn [app] in H; injection H as H0 H;
          first
            [ now split
            | exfalso;
              first [ apply Nc1; exact H0 | apply Nc2; exact H0
                    | apply Nc3; exact H0 | apply Nc4; exact H0
                    | apply Nd1; symmetry; exact H0 | apply Nd2; symmetry; exact H0
                    | apply Nd3; symmetry; exact H0 | apply Nd4; symmetry; exact H0 ] ] ]. }
    destruct Hhead as [-> Htail]. f_equal. now apply IH.
Qed.

End Escape.

(** ** Cutting messages for the lists *)

Section Truncation.

Import Dashboard.

(** X6.  [truncateMessage] leaves a message of at most [maxLength] code
    units as it is.  A longer one becomes its first [maxLength] code units
    followed by three dots: the result has at most [maxLength + 3] code
    units, which is up to two more than the message had. *)
Theorem truncateMessage_length (message : jsstring) (maxLength : nat) :
  (length message <= maxLength -> truncateMessage message maxLength = message)
  /\ (maxLength < length message ->
      truncateMessage message maxLength = firstn maxLength message ++ str "..."
      /\ length (truncateMessage message maxLength) = maxLength + 3)
  /\ length (truncateMessage message maxLength) <= maxLength + 3
  /\ length (truncateMessage message maxLength) <= length message + 2.
Proof.
  unfold truncateMessage.
  destruct (Nat.leb_spec (length message) maxLength) as [Hle|Hlt].
  - repeat split; intros; lia.
  - assert (Hlen : length (firstn maxLength message ++ str "...") = maxLength + 3).
    { rewrite length_app, length_firstn. change (length (str "...")) with 3. lia. }
    repeat split; intros; try lia; exact Hlen.
Qed.

(** X7.  Cutting a message that was already cut, at the same length,
    changes nothing. *)
Theorem truncateMessage_idempotent (message : jsstring) (maxLength : nat) :
  truncateMessage (truncateMessage message maxLength) maxLength
  = truncateMessage message maxLength.
Proof.
  unfold truncateMessage.
  destruct (Nat.leb_spec (length message) maxLength) as [Hle|Hlt].
  - apply Nat.leb_le in Hle. now rewrite Hle.
  - assert (Hlen : length (firstn maxLength message) = maxLength).
    { rewrite length_firstn. lia. }
    destruct (Nat.leb_spec (length (firstn maxLength message ++ str "...")) maxLength)
      as [Hle'|_].
    + rewrite length_app, Hlen in Hle'. change (length (str "...")) with 3 in Hle'. lia.
    + rewrite <- Hlen at 1. now rewrite take_app_length.
Qed.

(** The analytics list cuts by the same rule, at 80 code units. *)
Lemma displayMessage_truncateMessage (card : Analytics.CardAnalytics) :
  Analytics.displayMessage card = truncateMessage (Analytics.message card) 80.
Proof.
  unfold Analytics.displayMessage, truncateMessage.
  destruct (Nat.ltb_spec 80 (length (Analytics.message card)));
    destruct (Nat.leb_spec (length (Analytics.message card)) 80); try lia; reflexivity.
Qed.

End Truncation.

(** ** The analytics summary *)

Section Summary.

Import Analytics.

Lemma elem_of_flat_map_viewer_names (data : list CardAnalytics) (n : jsstring) :
  n ∈ flat_map viewer_names data <-> exists card, card ∈ data /\ n ∈ viewer_names card.
Proof.
  rewrite !list_elem_of_In, in_flat_map.
  split; intros (card & H1 & H2); exists card; now rewrite ?list_elem_of_In in *.
Qed.

(** X8.  The "unique viewers" figure of the summary counts every name once,
    however many cards it was seen on: it is the length of any list without
    repetition that holds exactly the names found in the cards. *)
Theorem totalUniqueViewers_counts_names (data : list CardAnalytics) (names : list jsstring) :
  NoDup names ->
  (forall n, n ∈ names <-> exists card, card ∈ data /\ n ∈ viewer_names card) ->
  totalUniqueViewers data = length names.
Proof.
  intros Hnodup Hnames. unfold totalUniqueViewers.
  rewrite <- (size_list_to_set (C := gset jsstring) names Hnodup).
  f_equal. apply set_eq. intros n.
  rewrite !elem_of_list_to_set, Hnames. apply elem_of_flat_map_viewer_names.
Qed.

Lemma size_list_to_set_le (l : list jsstring) :
  size (list_to_set l : gset jsstring) <= length l.
Proof.
  induction l as [|a l IH]; cbn [list_to_set length].
  - now rewrite size_empty.
  - rewrite size_union_alt, size_singleton.
    assert (Hsub : size (list_to_set l ∖ {[a]} : gset jsstring)
                   <= size (list_to_set l : gset jsstring)).
    { apply subseteq_size. intros x Hx. now apply elem_of_difference in Hx. }
    lia.
Qed.

Lemma totalUniqueViewers_counts_names_witness :
  let seen_by names :=
    mkCardAnalytics (str "c1") (str "Dear {name}, join us!") (str "2024-01-01")
      (length names) (length names) names [] in
  totalUniqueViewers [seen_by [str "Asha"; str "Ben"]; seen_by [str "Ben"]] = 2.
Proof.
  intros seen_by.
  apply (totalUniqueViewers_counts_names
           [seen_by [str "Asha"; str "Ben"]; seen_by [str "Ben"]]
           [str "Asha"; str "Ben"]).
  - apply NoDup_cons. split; [|apply NoDup_singleton].
    rewrite list_elem_of_singleton. vm_compute. discriminate.
  - intros n. split.
    + intros Hn. exists (seen_by [str "Asha"; str "Ben"]). split; [left|exact Hn].
    + intros (card & Hcard & Hn).
      apply elem_of_cons in Hcard as [->|Hcard]; [exact Hn|].
      apply elem_of_cons in Hcard as [->|Hcard]; [right; exact Hn|].
      now apply elem_of_nil in Hcard.
Defined.

(** X9.  The figure is at least the number of different names of any
    one card and at most the number of names listed in all of them. *)
Theorem totalUniqueViewers_bounds (data : list CardAnalytics) :
  (forall card, card ∈ data ->
     size (list_to_set (viewer_names card) : gset jsstring) <= totalUniqueViewers data)
  /\ totalUniqueViewers data <= length (flat_map viewer_names data).
Proof.
  unfold totalUniqueViewers. split.
  - intros card Hcard. apply subseteq_size. intros n.
    rewrite !elem_of_list_to_set, elem_of_flat_map_viewer_names. eauto.
  - apply size_list_to_set_le.
Qed.

End Summary.

(** ** Requests through [makeRequest] *)

Section Requests.

Import Browser Utils.

Context {B : Type} (serve : B -> Request -> B * FetchResult).

Lemma eqb_eq (a b : jsstring) : JsString.eqb a b = true <-> a = b.
Proof.
  unfold JsString.eqb. rewrite andb_true_iff, starts_with_iff, Nat.eqb_eq. split.
  - intros [[rest ->] Hlen]. rewrite length_app in Hlen.
    destruct rest as [|c rest]; [now rewrite app_nil_r|]. cbn [length] in Hlen. lia.
  - intros ->. split; [|reflexivity]. exists []. now rewrite app_nil_r.
Qed.

(** The first half of the test before the redirect is implied by the
    second. *)
Lemma redirect_test (path : jsstring) :
  negb (JsString.eqb path (str "/index.html")) && negb (endsWith path (str "index.html"))
  = negb (endsWith path (str "index.html")).
Proof.
  destruct (JsString.eqb path (str "/index.html")) eqn:E; [|reflexivity].
  apply eqb_eq in E. subst path. reflexivity.
Qed.

Lemma truthy_opt_Some (o : option jsstring) :
  truthy_opt o = true -> exists s, o = Some s /\ s <> [].
Proof.
  destruct o as [[|c s]|]; try discriminate. intros _. now exists (c :: s).
Qed.

Lemma error_message_value (r : Response) :
  let fallback := str "HTTP error! status: " ++ decimal (N.to_nat (status r)) in
  catch
    (bind (json r) (fun errorData =>
       bind (detail_or_message errorData) (fun found =>
         Ret (default fallback (or_else found (Some fallback))))))
    (fun parseError =>
       Ret (default fallback (or_else (Some (statusText r)) (Some fallback))))
  = Ret (error_message r).
Proof.
  intros fallback. unfold json, error_message. fold fallback.
  destruct (body r) as [[|detail msg|card|]|]; cbn [bind catch detail_or_message];
    try reflexivity.
  - unfold or_else. cbn [truthy_opt]. now destruct (truthy (statusText r)).
  - unfold or_else. cbn [truthy_opt]. now destruct (truthy (message card)).
  - unfold or_else. cbn [truthy_opt]. now destruct (truthy (statusText r)).
Qed.

Lemma error_message_nonempty (r : Response) : error_message r <> [].
Proof.
  unfold error_message.
  assert (Hfallback : forall n, str "HTTP error! status: " ++ decimal n <> [])
    by (intros n; discriminate).
  destruct (body r) as [[|detail msg|card|]|]; try apply Hfallback.
  - destruct (statusText r); [apply Hfallback|discriminate].
  - unfold or_else at 1.
    destruct (truthy_opt (or_else detail msg)) eqn:E; [|apply Hfallback].
    apply truthy_opt_Some in E as (s & -> & Hs). exact Hs.
  - destruct (message card); [apply Hfallback|discriminate].
  - destruct (statusText r); [apply Hfallback|discriminate].
Qed.

(** What a 401 does to the browser. *)
Lemma exec_raise_for_status_401 (errorMessage : jsstring) (w : World B) :
  exec serve (raise_for_status 401 errorMessage) w =
  (let w3 := remove_item (str "username")
               (remove_item (str "userId") (remove_item (str "authToken") w)) in
   if endsWith (pathname w) (str "index.html") then w3
   else navigate (str "index.html") w3,
   inl (Error (str "Session expired. Please log in again."))).
Proof.
  unfold raise_for_status. change (401 =? 401)%N with true. cbn iota.
  unfold mbind, Prog_bind. cbn [bind removeItem exec]. rewrite redirect_test.
  cbn [pathname remove_item].
  now destruct (endsWith (pathname w) (str "index.html")).
Qed.

Lemma exec_raise_for_status_other (st : N) (errorMessage : jsstring) (w : World B) :
  (st =? 401)%N = false ->
  exists m, exec serve (raise_for_status st errorMessage) w = (w, inl (Error m))
            /\ (errorMessage <> [] -> m <> []).
Proof.
  intros Hst. unfold raise_for_status. rewrite Hst.
  repeat match goal with |- context [if ?c then _ else _] => destruct c end;
    cbn [exec]; eexists; (split; [reflexivity|]); try (intros _; discriminate).
  auto.
Qed.

(** [makeRequest] sends one request and turns the answer into its
    result; the outer handler only rewrites the rejection of [fetch]. *)
Lemma exec_makeRequest (w : World B) (url : Url) (options : Options) :
  exec serve (makeRequest url options) w =
  let '(w1, r) :=
    send serve (mergedOptions (localStorage w !! str "authToken") url options) w in
  match r with
  | Rejected e => exec serve (rethrow e) w1
  | Responded response =>
      if ok response then
        (w1, match body response with
             | Some j => inr j
             | None => inl (mkError (str "SyntaxError") (str "Unexpected token in JSON"))
             end)
      else exec serve (raise_for_status (status response) (error_message response)) w1
  end.
Proof.
  unfold makeRequest, mbind, Prog_bind, mret, Prog_ret.
  rewrite exec_bind. cbn [getItem exec]. rewrite exec_catch, exec_bind.
  cbn [fetch exec].
  destruct (send serve _ w) as [w1 [e|r]]; cbn [exec]; [reflexivity|].
  destruct (ok r) eqn:Hok; cbn [negb].
  - unfold json. destruct (body r); cbn [exec]; [reflexivity|].
    unfold rethrow. reflexivity.
  - rewrite exec_bind. pose proof (error_message_value r) as Hm. cbn zeta in Hm.
    unfold jsstring in *. rewrite Hm. cbn [exec].
    destruct (status r =? 401)%N eqn:Hst.
    + apply N.eqb_eq in Hst. rewrite Hst, exec_raise_for_status_401.
      unfold rethrow. reflexivity.
    + destruct (exec_raise_for_status_other (status r) (error_message r) w1 Hst)
        as (m & -> & _).
      unfold rethrow. reflexivity.
Qed.

End Requests.

Section RequestProperties.

Import Browser Utils.

Context {B : Type} (serve : B -> Request -> B * FetchResult).

Lemma rethrow_throws (e : JsError) : exists e', rethrow e = Throw e'.
Proof. unfold rethrow. destruct (_ && _); eauto. Qed.

(** The four ways a call of [makeRequest] can go: no response, a
    response that is ok, a 401, and any other response. *)
Ltac makeRequest_cases w url options :=
  rewrite exec_makeRequest; unfold send;
  destruct (serve (backend w)
              (mergedOptions (localStorage w !! str "authToken") url options))
    as [b [e|response]];
  [ destruct (rethrow_throws e) as [e' ->]; cbn [exec]
  | destruct (ok response) eqn:Hok;
    [ | let Hst := fresh "Hst" in
        destruct (status response =? 401)%N eqn:Hst;
        [ apply N.eqb_eq in Hst; rewrite Hst, exec_raise_for_status_401; cbn [pathname]
        | let m := fresh "m" in
          let Hm := fresh "Hm" in
          destruct (exec_raise_for_status_other serve (status response)
                      (error_message response)
                      (mkWorld (localStorage w) (onLine w) (pathname w) (autoplay w)
                         (audio_ready w) (navigations w) (page w)
                         (sent w ++ [mergedOptions (localStorage w !! str "authToken")
                                       url options]) b) Hst)
            as (m & -> & Hm) ] ] ].

(** X10.  [makeRequest] returns a value exactly when the server answered
    with a status from 200 to 299 and a JSON body, and the value is that
    body; such a call leaves [localStorage], the location and the page as
    they were. *)
Theorem makeRequest_returns_body (w : World B) (url : Url) (options : Options) (j : Json) :
  let req := mergedOptions (localStorage w !! str "authToken") url options in
  let '(w', outcome) := exec serve (makeRequest url options) w in
  (outcome = inr j <->
   exists response,
     (serve (backend w) req).2 = Responded response
     /\ ok response = true /\ body response = Some j)
  /\ (outcome = inr j ->
      localStorage w' = localStorage w /\ navigations w' = navigations w
      /\ page w' = page w).
Proof.
  intros req. subst req. makeRequest_cases w url options; cbn [snd].
  - split; [|discriminate]. split; [discriminate|]. now intros (r & Hr & _).
  - split; [|now intros _]. split.
    + destruct (body response) as [j'|] eqn:Hbody; [|discriminate].
      intros Hj. injection Hj as ->. eauto.
    + intros (r & Hr & _ & Hj). injection Hr as <-. now rewrite Hj.
  - split; [|discriminate]. split; [discriminate|].
    intros (r & Hr & Hr_ok & _). injection Hr as <-. congruence.
  - split; [|discriminate]. split; [discriminate|].
    intros (r & Hr & Hr_ok & _). injection Hr as <-. congruence.
Qed.

(** X11.  The request [makeRequest] sends goes to the URL it was given,
    with the method ([GET] when none is given) and body of the options.
    A header of the options is sent as given; of the others, the request
    has [Content-Type: application/json] and, when a non-empty token is
    stored, [Authorization: Bearer <token>], and nothing else. *)
Theorem makeRequest_headers (w : World B) (url : Url) (options : Options) :
  let token := localStorage w !! str "authToken" in
  let '(w', _) := exec serve (makeRequest url options) w in
  exists req,
    sent w' = sent w ++ [req]
    /\ req_url req = url
    /\ req_method req = default (str "GET") (opt_method options)
    /\ req_body req = opt_body options
    /\ forall key,
         req_headers req !! key =
         match opt_headers options !! key with
         | Some value => Some value
         | None =>
             if bool_decide (key = str "Content-Type") then Some (str "application/json")
             else if bool_decide (key = str "Authorization") && truthy_opt token
                  then Some (str "Bearer " ++ default [] token)
                  else None
         end.
Proof.
  intros token.
  assert (Hheaders : forall key,
    merged_headers token options !! key =
    match opt_headers options !! key with
    | Some value => Some value
    | None =>
        if bool_decide (key = str "Content-Type") then Some (str "application/json")
        else if bool_decide (key = str "Authorization") && truthy_opt token
             then Some (str "Bearer " ++ default [] token)
             else None
    end).
  { intros key. unfold merged_headers. rewrite lookup_union.
    destruct (opt_headers options !! key) as [value|]; [now rewrite union_Some_l|].
    rewrite (left_id None _). case_bool_decide as Hct.
    - subst key. apply lookup_insert_eq.
    - rewrite lookup_insert_ne by congruence.
      destruct token as [[|c t]|]; cbn [truthy_opt truthy isEmpty negb andb].
      + rewrite andb_false_r. apply lookup_empty.
      + case_bool_decide as Hauth; cbn [andb].
        * subst key. apply lookup_singleton_eq.
        * apply lookup_singleton_ne. congruence.
      + rewrite andb_false_r. apply lookup_empty. }
  subst token. makeRequest_cases w url options;
    try destruct (endsWith (pathname w) _);
    cbn [sent remove_item navigate];
    (eexists; split; [reflexivity|]);
    cbn [mergedOptions req_url req_method req_body req_headers];
    auto.
Qed.

(** X12.  [makeRequest] writes nothing to the page, and it changes the
    location in one case only: after a 401, when the path of the page does
    not end in [index.html], it goes to [index.html].  The comparison with
    [/index.html] in the source never decides. *)
Theorem makeRequest_redirects_on_401 (w : World B) (url : Url) (options : Options) :
  let req := mergedOptions (localStorage w !! str "authToken") url options in
  let '(w', outcome) := exec serve (makeRequest url options) w in
  page w' = page w
  /\ navigations w' = navigations w ++
       match (serve (backend w) req).2 with
       | Responded response =>
           if (status response =? 401)%N && negb (endsWith (pathname w) (str "index.html"))
           then [str "index.html"] else []
       | Rejected _ => []
       end.
Proof.
  intros req. subst req. makeRequest_cases w url options; cbn [snd page navigations].
  - now rewrite app_nil_r.
  - rewrite (ok_not_401 response Hok). now rewrite app_nil_r.
  - rewrite Hst. change (401 =? 401)%N with true. cbn [andb].
    destruct (endsWith (pathname w) (str "index.html")); cbn [negb page navigations remove_item navigate];
      now rewrite ?app_nil_r.
  - rewrite Hst. now rewrite app_nil_r.
Qed.


End RequestProperties.

(** ** The analytics requests *)

Section AnalyticsRequests.

Import Browser Utils Analytics.

Context {B : Type} (serve : B -> Request -> B * FetchResult).

Lemma makeRequest_sends_one (w : World B) (url : Url) (options : Options) :
  sent (exec serve (makeRequest url options) w).1 =
  sent w ++ [mergedOptions (localStorage w !! str "authToken") url options].
Proof.
  rewrite exec_makeRequest.
  pose proof (send_spec serve
                (mergedOptions (localStorage w !! str "authToken") url options) w) as Hsend.
  destruct (send serve _ w) as [w1 [e|response]]; destruct Hsend as (_ & _ & Hsent & _).
  - destruct (rethrow_throws e) as [e' ->]. exact Hsent.
  - destruct (ok response); [exact Hsent|].
    pose proof (exec_raise_for_status serve (status response) (error_message response) w1)
      as Hraise.
    destruct (exec serve (raise_for_status _ _) w1) as [w2 out].
    destruct Hraise as [Hkept _]. cbn [fst]. now rewrite Hkept.
Qed.

(** A wrapper that only throws the error again adds nothing. *)
Lemma exec_catch_rethrow {A : Type} (p : Prog A) (w : World B) :
  exec serve (catch (bind p Ret) (fun error => Throw error)) w = exec serve p w.
Proof.
  rewrite exec_catch, exec_bind. now destruct (exec serve p w) as [w1 [e|a]].
Qed.

Lemma test_re_identifier_chars (s : jsstring) :
  Regex.test re_identifier s = negb (isEmpty s) && forallb identifier_char s.
Proof.
  pose proof (test_re_identifier s) as H. unfold identifier_char.
  destruct (Regex.test re_identifier s).
  - destruct (proj1 H eq_refl) as [Hs ->]. now destruct s.
  - destruct s as [|c s]; [reflexivity|]. cbn [isEmpty negb andb].
    destruct (forallb _ (c :: s)); [|reflexivity].
    apply H. now split.
Qed.

(** X14.  [loadCardAnalytics] asks the server only when the browser is
    online and the card id is a non-empty string of letters, digits,
    underscores and hyphens: then it sends the one request of
    [makeRequest] for [/analytics/<id>].  Otherwise it throws with the
    browser untouched; being offline is reported before a bad id. *)
Theorem loadCardAnalytics_request (w : World B) (cardId : option jsstring) :
  let cid := default [] cardId in
  let '(w', outcome) := exec serve (loadCardAnalytics cardId) w in
  if onLine w && negb (isEmpty cid) && forallb identifier_char cid
  then sent w' = sent w ++
         [mergedOptions (localStorage w !! str "authToken")
            (mkUrl baseUrl [str "analytics"; cid] None) no_options]
  else w' = w
       /\ outcome =
          inl (Error (if onLine w then str "Invalid card ID"
                      else str "You are offline. Please check your internet connection and try again.")).
Proof.
  intros cid. unfold loadCardAnalytics, mbind, Prog_bind.
  rewrite exec_catch, exec_bind. cbn [isOnline exec].
  destruct (onLine w); cbn [negb andb exec]; [|now split].
  assert (Hvalid : negb (truthy_opt cardId)
                   || negb (Regex.test re_identifier (default [] cardId))
                   = negb (negb (isEmpty cid) && forallb identifier_char cid)).
  { rewrite test_re_identifier_chars. fold cid. destruct cardId as [s|]; [|reflexivity].
    cbn [truthy_opt]. unfold truthy, cid. cbn [default from_option id].
    now destruct (isEmpty s), (forallb identifier_char s). }
  rewrite Hvalid.
  destruct (negb (isEmpty cid) && forallb identifier_char cid); cbn [negb exec];
    [|now split].
  rewrite exec_bind. fold cid.
  pose proof (makeRequest_sends_one w (mkUrl baseUrl [str "analytics"; cid] None) no_options)
    as Hsent.
  destruct (exec serve (makeRequest _ _) w) as [w1 [e|j]]; exact Hsent.
Qed.

(** X15.  [loadUserAnalytics] asks the server only when the browser is
    online and a non-empty [userId] is stored: then it sends the one
    request of [makeRequest] for [/analytics/user/<userId>].  Otherwise it
    throws with the browser untouched. *)
Theorem loadUserAnalytics_request (w : World B) :
  let userId := localStorage w !! str "userId" in
  let '(w', outcome) := exec serve loadUserAnalytics w in
  if onLine w && truthy_opt userId
  then sent w' = sent w ++
         [mergedOptions (localStorage w !! str "authToken")
            (mkUrl baseUrl [str "analytics"; str "user"; default [] userId] None)
            no_options]
  else w' = w
       /\ outcome =
          inl (Error (if onLine w then str "User not logged in"
                      else str "You are offline. Please check your internet connection and try again.")).
Proof.
  intros userId. unfold loadUserAnalytics, mbind, Prog_bind.
  rewrite exec_catch, exec_bind. cbn [isOnline exec].
  destruct (onLine w); cbn [negb andb exec]; [|now split].
  rewrite exec_bind. cbn [getItem exec]. fold userId.
  destruct (truthy_opt userId); cbn [negb exec]; [|now split].
  rewrite exec_bind.
  pose proof (makeRequest_sends_one w
                (mkUrl baseUrl [str "analytics"; str "user"; default [] userId] None)
                no_options) as Hsent.
  destruct (exec serve (makeRequest _ _) w) as [w1 [e|j]]; exact Hsent.
Qed.

End AnalyticsRequests.

(** ** The viewer's page *)

Section ViewerPage.

Import Browser CardViewer.

Context {B : Type} (serve : B -> Request -> B * FetchResult).

(** [loadCard] reads the network and nothing else. *)
Lemma loadCard_frame (w : World B) (cardId recipientName : option jsstring) :
  let '(w', outcome) := exec serve (loadCard cardId recipientName) w in
  localStorage w' = localStorage w
  /\ navigations w' = navigations w
  /\ page w' = page w
  /\ (sent w' = sent w
      \/ exists req, loadCard_request (onLine w) cardId recipientName = inr req
                     /\ sent w' = sent w ++ [req]).
Proof.
  rewrite exec_loadCard.
  destruct (loadCard_request (onLine w) cardId recipientName) as [e|req];
    [now repeat split; try left|].
  unfold send. destruct (serve (backend w) req) as [b r]. cbn.
  repeat split. right. now exists req.
Qed.

(** X16.  [loadCard] leaves [localStorage], the location and the page as
    they are, and sends at most one request: a [GET] whose only header is
    [Content-Type].  The card request carries no [Authorization] header,
    whether a token is stored or not. *)
Theorem loadCard_sends_no_token (w : World B) (cardId recipientName : option jsstring) :
  let '(w', outcome) := exec serve (loadCard cardId recipientName) w in
  localStorage w' = localStorage w
  /\ navigations w' = navigations w
  /\ page w' = page w
  /\ (sent w' = sent w
      \/ exists req,
           sent w' = sent w ++ [req]
           /\ req_method req = str "GET"
           /\ req_headers req = {[str "Content-Type" := str "application/json"]}
           /\ req_headers req !! str "Authorization" = None).
Proof.
  pose proof (loadCard_frame w cardId recipientName) as H.
  destruct (exec serve (loadCard cardId recipientName) w) as [w' outcome].
  destruct H as (H1 & H2 & H3 & [H4|(req & Hreq & H4)]); repeat (split; [assumption|]);
    [now left|].
  right. exists req. split; [assumption|].
  apply loadCard_request_sent in Hreq as (cid & _ & ->).
  cbn [req_method req_headers]. repeat split.
Qed.

Lemma exec_load_audio (url : Url) (w : World B) :
  let w' := load_audio serve url w in
  localStorage w' = localStorage w
  /\ navigations w' = navigations w
  /\ sent w' = sent w ++ [mkRequest url (str "GET") ∅ None]
  /\ exists rest, page w' = page w ++ rest.
Proof.
  unfold load_audio, send.
  destruct (serve (backend w) (mkRequest url (str "GET") ∅ None)) as [b r].
  cbn. repeat split. eauto.
Qed.

(** [playAudio] catches what it throws, keeps what the page shows and
    adds to it. *)
Lemma playAudio_frame (w : World B) (cardId audioPath recipientName : option jsstring) :
  let '(w', outcome) := exec serve (playAudio cardId audioPath recipientName) w in
  outcome = inr tt
  /\ localStorage w' = localStorage w
  /\ navigations w' = navigations w
  /\ (exists rest, page w' = page w ++ rest)
  /\ sent w' = sent w ++
       (if negb (truthy_opt audioPath) then []
        else if truthy_opt recipientName && truthy_opt cardId then
          if well_formed_utf16 (default [] recipientName)
          then [mkRequest
                  (mkUrl baseUrl [str "cards"; default [] cardId; str "audio"]
                     (Some (str "recipient_name", default [] recipientName)))
                  (str "GET") ∅ None]
          else []
        else [mkRequest (mkUrl baseUrl [default [] audioPath] None) (str "GET") ∅ None]).
Proof.
  unfold playAudio, mbind, Prog_bind, mret, Prog_ret. rewrite exec_catch.
  destruct (truthy_opt audioPath); cbn [negb].
  2:{ cbn [exec]. rewrite !app_nil_r. repeat split. exists []. now rewrite app_nil_r. }
  rewrite exec_bind.
  assert (Hplay : forall url,
    let '(w', outcome) :=
      exec serve (bind (SetAudioSrc url (Ret tt)) (fun _ =>
        bind (Play Ret) (fun played : bool => if played then Ret tt else dom PlayNote))) w in
    outcome = inr tt
    /\ localStorage w' = localStorage w
    /\ navigations w' = navigations w
    /\ (exists rest, page w' = page w ++ rest)
    /\ sent w' = sent w ++ [mkRequest url (str "GET") ∅ None]).
  { intros url. cbn [bind exec].
    destruct (exec_load_audio url w) as (H1 & H2 & H3 & rest & H4).
    destruct (autoplay (load_audio serve url w) && audio_ready (load_audio serve url w));
      cbn [dom exec write_page localStorage navigations page sent];
      repeat (split; [assumption || reflexivity|]); try assumption.
    - split; [|assumption]. now exists rest.
    - split; [|assumption]. exists (rest ++ [PlayNote]). now rewrite H4, app_assoc. }
  destruct (truthy_opt recipientName && truthy_opt cardId).
  - rewrite exec_bind. unfold encodeURIComponent.
    destruct (well_formed_utf16 (default [] recipientName)); cbn [exec].
    + match goal with |- context [SetAudioSrc ?u] => specialize (Hplay u) end.
      destruct (exec serve _ w) as [w' [e|[]]]; [now destruct Hplay|exact Hplay].
    + rewrite !app_nil_r. cbn [dom exec write_page localStorage navigations page sent].
      repeat split. eauto.
  - cbn [exec].
    match goal with |- context [SetAudioSrc ?u] => specialize (Hplay u) end.
    destruct (exec serve _ w) as [w' [e|[]]]; [now destruct Hplay|exact Hplay].
Qed.

(** X17.  [playAudio] never throws and never touches [localStorage] or
    the location.  Without an audio path it does nothing.  With one, it
    loads the personalized endpoint of the card when it has a name and a
    card id, and then the path itself is not used; it loads the path
    otherwise.  A name that cannot be encoded means no request at all. *)
Theorem playAudio_source (w : World B) (cardId audioPath recipientName : option jsstring) :
  let '(w', outcome) := exec serve (playAudio cardId audioPath recipientName) w in
  outcome = inr tt
  /\ localStorage w' = localStorage w
  /\ navigations w' = navigations w
  /\ (truthy_opt audioPath = false -> w' = w)
  /\ sent w' = sent w ++
       (if negb (truthy_opt audioPath) then []
        else if truthy_opt recipientName && truthy_opt cardId then
          if well_formed_utf16 (default [] recipientName)
          then [mkRequest
                  (mkUrl baseUrl [str "cards"; default [] cardId; str "audio"]
                     (Some (str "recipient_name", default [] recipientName)))
                  (str "GET") ∅ None]
          else []
        else [mkRequest (mkUrl baseUrl [default [] audioPath] None) (str "GET") ∅ None]).
Proof.
  pose proof (playAudio_frame w cardId audioPath recipientName) as H.
  assert (Hnone : truthy_opt audioPath = false ->
                  exec serve (playAudio cardId audioPath recipientName) w = (w, inr tt)).
  { intros Hpath. unfold playAudio. rewrite exec_catch, Hpath. reflexivity. }
  destruct (exec serve (playAudio cardId audioPath recipientName) w) as [w' outcome].
  destruct H as (H1 & H2 & H3 & _ & H4). repeat (split; [assumption|]).
  split; [|assumption]. intros Hpath. now injection (Hnone Hpath).
Qed.

Lemma show_audio_frame (w : World B) (cardId voice_path : option jsstring)
    (recipientName : jsstring) :
  let '(w', outcome) := exec serve (show_audio cardId voice_path recipientName) w in
  outcome = inr tt /\ exists rest, page w' = page w ++ rest.
Proof.
  unfold show_audio, mbind, Prog_bind.
  destruct (truthy_opt voice_path); cbn [dom bind exec].
  - match goal with |- context [exec serve (playAudio ?a ?b ?c) ?w0] =>
      pose proof (playAudio_frame w0 a b c) as H;
      destruct (exec serve (playAudio a b c) w0) as [w' outcome]
    end.
    destruct H as (H1 & _ & _ & (rest & H2) & _). split; [assumption|].
    cbn [write_page page] in H2. rewrite H2, <- !app_assoc. eauto.
  - split; [reflexivity|]. cbn [write_page page]. rewrite <- !app_assoc. eauto.
Qed.

(** X18.  A name the validator rejects goes no further than the form:
    the handler shows the validator's first message, which is never empty,
    and returns; nothing is sent and nothing else changes. *)
Theorem nameForm_submit_rejects_name (w : World B) (cardId : option jsstring)
    (value : jsstring) :
  Utils.isValid (Utils.validateRecipientName (trim value)) = false ->
  exists text,
    text <> []
    /\ exec serve (nameForm_submit cardId value) w
       = (write_page [Notification ErrorNotification text] w, inr tt).
Proof.
  intros Hinvalid. unfold nameForm_submit. rewrite Hinvalid. cbn [negb dom exec].
  eexists. split; [|reflexivity].
  revert Hinvalid. unfold Utils.validateRecipientName, first_error, Utils.push_if.
  cbn [Utils.isValid Utils.errors].
  destruct (isEmpty (trim value) || isEmpty (trim (trim value)));
    [intros _; discriminate|].
  destruct (length (trim (trim value)) <? 1); [intros _; discriminate|].
  destruct (100 <? length (trim (trim value))); [intros _; discriminate|].
  destruct (Regex.test Utils.re_tag (trim (trim value))); [intros _; discriminate|].
  discriminate.
Qed.

(** X19.  The submit handler ends in one of two ways.  Either it
    completes, or something in its [try] block threw: then the error page
    is the last thing written, with a text that is not empty, and the
    handler itself fails with the [ReferenceError] of its [catch] block,
    where [originalText] is not in scope. *)
Theorem nameForm_submit_outcomes (w : World B) (cardId : option jsstring)
    (value : jsstring) :
  let '(w', outcome) := exec serve (nameForm_submit cardId value) w in
  outcome = inr tt
  \/ (outcome = inl (mkError (str "ReferenceError") (str "originalText is not defined"))
      /\ exists text, last (page w') = Some (ErrorPage text) /\ text <> []).
Proof.
  unfold nameForm_submit, mbind, Prog_bind.
  destruct (Utils.isValid (Utils.validateRecipientName (trim value)));
    cbn [negb]; [|now left].
  rewrite exec_catch.
  destruct (exec serve _ w) as [w1 [e|[]]]; [|now left].
  right. cbn [dom bind exec write_page page]. split; [reflexivity|].
  eexists. split; [apply last_snoc|].
  unfold or_else. cbn [truthy_opt].
  destruct (err_message e); [discriminate|]. cbn. discriminate.
Qed.

(** X20.  When the name is valid and [loadCard] returns a card, the
    handler completes, and what it writes to the page begins with the
    loading state, the message of the card personalized for the trimmed
    name, and the switch from the form to the card. *)
Theorem nameForm_submit_shows_card (w w1 : World B) (cardId : option jsstring)
    (value : jsstring) (card : CardData) :
  Utils.isValid (Utils.validateRecipientName (trim value)) = true ->
  exec serve (loadCard cardId (Some (trim value))) (write_page [SubmitButtonLoading] w)
  = (w1, inr (JsonCard card)) ->
  let '(w', outcome) := exec serve (nameForm_submit cardId value) w in
  outcome = inr tt
  /\ exists rest,
       page w' = page w ++
         [SubmitButtonLoading;
          PersonalizedMessageHTML (personalizeMessage (message card) (trim value));
          HideNameInput; ShowCardDisplay] ++ rest.
Proof.
  intros Hvalid Hload. unfold nameForm_submit, mbind, Prog_bind. rewrite Hvalid.
  cbn [negb]. rewrite exec_catch. cbn [dom bind exec]. rewrite exec_bind, Hload.
  pose proof (loadCard_frame (write_page [SubmitButtonLoading] w) cardId (Some (trim value)))
    as Hframe.
  rewrite Hload in Hframe. destruct Hframe as (_ & _ & Hpage & _).
  cbn [card_message bind exec card_ai_voice_path].
  match goal with |- context [exec serve (show_audio ?a ?b ?c) ?w0] =>
    pose proof (show_audio_frame w0 a b c) as H;
    destruct (exec serve (show_audio a b c) w0) as [w' outcome]
  end.
  destruct H as (-> & rest & H). split; [reflexivity|]. exists rest.
  rewrite H. cbn [write_page page] in *. rewrite Hpage, <- !app_assoc. reflexivity.
Qed.

End ViewerPage.

Section ViewerScenario.

Import Browser CardViewer.

Lemma nameForm_submit_rejects_name_witness :
  exists text,
    text <> []
    /\ exec (Backend.serve (fun n => n)) (nameForm_submit (Some (str "abc123")) (str "   "))
         scenario_world
       = (write_page [Notification ErrorNotification text] scenario_world, inr tt).
Proof.
  apply (nameForm_submit_rejects_name (Backend.serve (fun n => n)) scenario_world (Some (str "abc123")) (str "   ")).
  vm_compute. reflexivity.
Defined.

Lemma nameForm_submit_shows_card_witness :
  let '(w', outcome) :=
    exec (Backend.serve (fun n => n))
      (nameForm_submit (Some (str "abc123")) (str "  Alice ")) scenario_world in
  outcome = inr tt
  /\ exists rest,
       page w' = page scenario_world ++
         [SubmitButtonLoading;
          PersonalizedMessageHTML
            (personalizeMessage (str "Dear Alice, thank you for coming!") (trim (str "  Alice ")));
          HideNameInput; ShowCardDisplay] ++ rest.
Proof.
  refine (nameForm_submit_shows_card (Backend.serve (fun n => n)) scenario_world _
            (Some (str "abc123")) (str "  Alice ")
            (mkCardData (str "Dear Alice, thank you for coming!") None) _ _).
  - vm_compute. reflexivity.
  - vm_compute. reflexivity.
Defined.

End ViewerScenario.

(** ** The session: auth.js *)

Section Session.

Import Browser AuthService.

Context {B : Type} (serve : B -> Request -> B * FetchResult).

Lemma exec_clearAuthData (w : World B) :
  exec serve clearAuthData w =
  (remove_item (str "username")
     (remove_item (str "userId") (remove_item (str "authToken") w)), inr tt).
Proof. reflexivity. Qed.

(** Nobody is logged in once the session entries are gone. *)
Lemma cleared_session_is_anonymous (w : World B) (storage : gmap jsstring jsstring) :
  localStorage w = session_cleared storage ->
  exec serve isAuthenticated w = (w, inr false)
  /\ exec serve getCurrentUser w = (w, inr (mkCurrentUser None None None)).
Proof.
  intros Hcleared. unfold isAuthenticated, getCurrentUser, mbind, Prog_bind.
  cbn [getItem bind exec]. rewrite Hcleared, !session_cleared_lookup.
  split; reflexivity.
Qed.

(** X21.  [logout] always completes, whatever the server does: the three
    session entries are removed, the page goes to [index.html], and
    afterwards [isAuthenticated] says no and [getCurrentUser] has nothing.
    The server is told only when a non-empty token was stored. *)
Theorem logout_always_clears (w : World B) :
  let token := localStorage w !! str "authToken" in
  let '(w', outcome) := exec serve logout w in
  outcome = inr tt
  /\ localStorage w' = session_cleared (localStorage w)
  /\ navigations w' = navigations w ++ [str "index.html"]
  /\ page w' = page w
  /\ sent w' = sent w ++
       (if truthy_opt token
        then [mkRequest (mkUrl baseUrl [str "auth"; str "logout"] None) (str "POST")
                (bearer_headers (default [] token)) None]
        else [])
  /\ exec serve isAuthenticated w' = (w', inr false)
  /\ exec serve getCurrentUser w' = (w', inr (mkCurrentUser None None None)).
Proof.
  intros token.
  assert (H : let '(w', outcome) := exec serve logout w in
    outcome = inr tt
    /\ localStorage w' = session_cleared (localStorage w)
    /\ navigations w' = navigations w ++ [str "index.html"]
    /\ page w' = page w
    /\ sent w' = sent w ++
         (if truthy_opt token
          then [mkRequest (mkUrl baseUrl [str "auth"; str "logout"] None) (str "POST")
                  (bearer_headers (default [] token)) None]
          else [])).
  { unfold logout, mbind, Prog_bind. rewrite exec_bind, exec_catch, exec_bind.
    cbn [getItem exec]. fold token.
    destruct (truthy_opt token).
    - rewrite exec_bind. cbn [fetch exec]. unfold send.
      destruct (serve (backend w) _) as [b [e|response]]; cbn; repeat split.
    - cbn. rewrite app_nil_r. repeat split. }
  destruct (exec serve logout w) as [w' outcome].
  destruct H as (H1 & H2 & H3 & H4 & H5). repeat (split; [assumption|]).
  exact (cleared_session_is_anonymous w' (localStorage w) H2).
Qed.

(** The ways a call of [verifyToken] can go. *)
Ltac verifyToken_cases w :=
  unfold verifyToken, clearAuthData, removeItem, mbind, Prog_bind;
  rewrite exec_catch, exec_bind; cbn [getItem exec];
  destruct (truthy_opt (localStorage w !! str "authToken")) eqn:Htoken; cbn [negb];
  [ rewrite exec_bind; cbn [fetch exec];
    try (lazymatch goal with
         | |- context [send serve ?sent_request w] =>
             lazymatch goal with
             | |- context [(serve (backend w) ?stated_request).2] =>
                 change stated_request with sent_request
             end
         end);
    unfold send;
    let r := lazymatch goal with |- context [serve (backend w) ?r] => r end in
    destruct (serve (backend w) r) as [b [e|response]];
    cbn [bind exec];
    [ | destruct (ok response) eqn:Hok; cbn [negb];
        [ unfold json;
          destruct (body response) as [[|detail msg|card|]|] eqn:Hbody
        | ];
        cbn [bind exec] ]
  | cbn [bind exec] ].

(** X22.  [verifyToken] never throws.  Without a non-empty token it says
    "invalid" at once, asks nobody and changes nothing.  With one it sends
    one request, and whenever the answer makes it say "invalid" the three
    session entries are removed; a "valid" leaves the storage as it is. *)
Theorem verifyToken_never_throws (w : World B) :
  let token := localStorage w !! str "authToken" in
  let '(w', outcome) := exec serve verifyToken w in
  exists v,
    outcome = inr v
    /\ (if truthy_opt token
        then sent w' = sent w ++
               [mkRequest (mkUrl baseUrl [str "auth"; str "verify"] None) (str "GET")
                  (bearer_headers (default [] token)) None]
             /\ localStorage w' = match v with
                                  | Valid _ => localStorage w
                                  | Invalid => session_cleared (localStorage w)
                                  end
        else w' = w /\ v = Invalid)
    /\ navigations w' = navigations w
    /\ page w' = page w.
Proof.
  intros token. subst token. verifyToken_cases w;
    cbn [remove_item sent localStorage navigations page];
    eexists; repeat split.
Qed.

(** X23.  [verifyToken] says "valid" exactly when a non-empty token is
    stored and the server answers the request with a status from 200 to
    299 and a JSON body other than [null]; the data it returns is that
    body. *)
Theorem verifyToken_valid_iff (w : World B) (data : Json) :
  let token := localStorage w !! str "authToken" in
  let req := mkRequest (mkUrl baseUrl [str "auth"; str "verify"] None) (str "GET")
               (bearer_headers (default [] token)) None in
  (exec serve verifyToken w).2 = inr (Valid data) <->
  truthy_opt token = true
  /\ exists response,
       (serve (backend w) req).2 = Responded response
       /\ ok response = true
       /\ body response = Some data
       /\ data <> JsonNull.
Proof.
  intros token req. subst token req. verifyToken_cases w; cbn [snd fst].
  all: split;
    [ intros H;
      first [ discriminate H
            | injection H as <-; split; [assumption|];
              eexists; repeat split; try eassumption; discriminate ]
    | intros (Ht & r & Hr & Hr_ok & Hr_body & Hnull);
      first [ discriminate Hr
            | injection Hr as <-; congruence
            | exfalso; exact (eq_true_false_abs _ Ht Htoken) ] ].
Qed.

(** X24.  On a page that is not protected the check does nothing.  On a
    protected page the visitor stays only when a non-empty token is stored
    and the server answers the verify request with a status from 200 to
    299 and a JSON body other than [null]; in every other case the page
    goes to [index.html].  The check itself never fails. *)
Theorem check_protected_page_redirects (w : World B) :
  let token := localStorage w !! str "authToken" in
  let req := mkRequest (mkUrl baseUrl [str "auth"; str "verify"] None) (str "GET")
               (bearer_headers (default [] token)) None in
  let protected :=
    existsb (JsString.eqb (pop (split (cu "/") (pathname w)))) protectedPages in
  let stays :=
    truthy_opt token
    && match (serve (backend w) req).2 with
       | Responded response =>
           ok response
           && match body response with
              | Some JsonNull | None => false
              | Some _ => true
              end
       | Rejected _ => false
       end in
  let '(w', outcome) := exec serve check_protected_page w in
  outcome = inr tt
  /\ page w' = page w
  /\ navigations w' = navigations w ++
       (if protected && negb stays then [str "index.html"] else [])
  /\ (protected = false -> w' = w).
Proof.
  intros token req protected stays. subst token req stays.
  unfold check_protected_page. unfold mbind at 1. unfold Prog_bind at 1.
  cbn [bind exec]. fold protected.
  destruct protected; cbn [andb].
  2:{ cbn [exec]. rewrite app_nil_r. now repeat split. }
  unfold mbind at 1. unfold Prog_bind at 1. rewrite exec_bind.
  verifyToken_cases w;
    repeat match goal with
           | |- context [truthy_opt ?t] =>
               first [ replace (truthy_opt t) with true by (symmetry; exact Htoken)
                     | replace (truthy_opt t) with false by (symmetry; exact Htoken) ]
           end;
    cbn [snd andb negb exec];
    rewrite ?Hok, ?Hbody; cbn [andb negb navigate remove_item page navigations];
    rewrite ?app_nil_r; repeat split; intros H; discriminate H.
Qed.

End Session.

(** ** Protected pages and the forms of auth.js *)

Section ProtectedPages.

Import Browser AuthService.

Lemma split_not_empty (sep : code_unit) (s : jsstring) : split sep s <> [].
Proof.
  destruct s as [|c s]; cbn [split]; [discriminate|].
  destruct (c =? sep)%N; [discriminate|]. now destruct (split sep s).
Qed.

Lemma split_app (sep : code_unit) (l1 l2 : jsstring) :
  split sep (l1 ++ sep :: l2) = split sep l1 ++ split sep l2.
Proof.
  induction l1 as [|c l1 IH]; cbn [app split].
  - now rewrite N.eqb_refl.
  - destruct (c =? sep)%N; rewrite IH; [reflexivity|].
    pose proof (split_not_empty sep l1) as Hne.
    now destruct (split sep l1).
Qed.

Lemma split_one (sep : code_unit) (s : jsstring) :
  forallb (fun c => negb (c =? sep)%N) s = true -> split sep s = [s].
Proof.
  induction s as [|c s IH]; cbn [forallb split]; [reflexivity|].
  intros H. apply andb_prop in H as [Hc Hs]. apply negb_true_iff in Hc.
  now rewrite Hc, (IH Hs).
Qed.

Lemma last_app_r {A : Type} (l1 l2 : list A) (d : A) :
  l2 <> [] -> List.last (l1 ++ l2) d = List.last l2 d.
Proof.
  intros Hne. induction l1 as [|a l1 IH]; [reflexivity|].
  cbn [app]. rewrite <- IH. cbn [List.last].
  destruct (l1 ++ l2) eqn:E; [|reflexivity].
  apply app_eq_nil in E as [_ ->]. now contradict Hne.
Qed.

(** [path.split('/').pop()] is what follows the last slash. *)
Lemma pop_split_spec (path : jsstring) :
  let page := pop (split (cu "/") path) in
  forallb (fun c => negb (c =? cu "/")%N) page = true
  /\ (path = page \/ exists dir, path = dir ++ cu "/" :: page).
Proof.
  induction path as [|c path IH]; [now split; [|left]|].
  destruct IH as [Hpage Hpath]. cbn [split].
  destruct (c =? cu "/")%N eqn:Hc.
  - apply N.eqb_eq in Hc. subst c. unfold pop in *.
    change ([] :: split (cu "/") path) with ([[]] ++ split (cu "/") path).
    rewrite last_app_r by apply split_not_empty.
    split; [exact Hpage|]. right.
    destruct Hpath as [Hpath|[dir Hpath]].
    + exists []. cbn [app]. now f_equal.
    + exists (cu "/" :: dir). cbn [app]. now f_equal.
  - unfold pop in *. pose proof (split_not_empty (cu "/") path) as Hne.
    destruct (split (cu "/") path) as [|first [|second others]] eqn:E;
      [now contradict Hne| |].
    + cbn [List.last] in *. split.
      * cbn [forallb]. now rewrite Hc, Hpage.
      * destruct Hpath as [Hpath|[dir Hpath]]; [left; now f_equal|].
        exfalso. rewrite Hpath, split_app in E.
        pose proof (split_not_empty (cu "/") dir) as H1.
        pose proof (split_not_empty (cu "/") first) as H2.
        destruct (split (cu "/") dir), (split (cu "/") first); try congruence.
        cbn in E. injection E as _ E. destruct l; discriminate E.
    + cbn [List.last] in *.
      split; [exact Hpage|]. right.
      destruct Hpath as [Hpath|[dir Hpath]].
      * exfalso. rewrite Hpath, split_one in E by exact Hpage. discriminate E.
      * exists (c :: dir). cbn [app]. now f_equal.
Qed.

(** X25.  The pages the check protects are those whose path ends in the
    segment [dashboard.html] or [create-card.html]: the path is that name,
    or the name follows a slash. *)
Theorem protected_pages_by_last_segment (path : jsstring) :
  existsb (JsString.eqb (pop (split (cu "/") path))) protectedPages = true <->
  exists page,
    (page = str "dashboard.html" \/ page = str "create-card.html")
    /\ (path = page \/ exists dir, path = dir ++ cu "/" :: page).
Proof.
  assert (Hlast : forall page dir,
            forallb (fun c => negb (c =? cu "/")%N) page = true ->
            pop (split (cu "/") (dir ++ cu "/" :: page)) = page
            /\ pop (split (cu "/") page) = page).
  { intros page dir Hpage. unfold pop.
    rewrite split_app, last_app_r by apply split_not_empty.
    now rewrite split_one. }
  unfold protectedPages. cbn [existsb]. rewrite orb_false_r, orb_true_iff, !eqb_eq.
  split.
  - intros H. exists (pop (split (cu "/") path)). split; [exact H|].
    apply pop_split_spec.
  - intros (page & Hpage & Hpath).
    assert (Hplain : forallb (fun c => negb (c =? cu "/")%N) page = true)
      by (destruct Hpage as [->| ->]; reflexivity).
    destruct (Hlast page [] Hplain) as [_ H0].
    destruct Hpath as [->|[dir ->]].
    + now rewrite H0.
    + destruct (Hlast page dir Hplain) as [-> _]. exact Hpage.
Qed.

End ProtectedPages.

Section Forms.

Import Utils UtilsRest AuthService.

Lemma first_error_nonempty (a b c : bool) (ma mb mc : string) :
  ma <> EmptyString -> mb <> EmptyString -> mc <> EmptyString ->
  (length (push_if a ma ++ push_if b mb ++ push_if c mc) =? 0) = false ->
  List.hd [] (push_if a ma ++ push_if b mb ++ push_if c mc) <> [].
Proof.
  intros Ha Hb Hc. unfold push_if.
  assert (Hstr : forall m, m <> EmptyString -> str m <> []).
  { intros [|ch m] Hm; [now contradict Hm|discriminate]. }
  destruct a, b, c; cbn [app List.hd length Nat.eqb]; intros H;
    try discriminate H; now apply Hstr.
Qed.

(** X26.  The registration form calls [register] exactly when the trimmed
    user name and the password pass their validators and the confirmation
    equals the password; the separate test for an empty confirmation never
    decides.  The login form asks the same of the user name and the
    password.  Whenever a form stops, the message it shows is not empty. *)
Theorem registerForm_check_passes (usernameValue password confirmPassword : jsstring) :
  (registerForm_check usernameValue password confirmPassword = None <->
   isValid (validateUsername (trim usernameValue)) = true
   /\ isValid (validatePassword password) = true
   /\ confirmPassword = password)
  /\ (loginForm_check usernameValue password = None <->
      isValid (validateUsername (trim usernameValue)) = true
      /\ isValid (validatePassword password) = true)
  /\ (forall text,
        registerForm_check usernameValue password confirmPassword = Some text
        \/ loginForm_check usernameValue password = Some text ->
        text <> []).
Proof.
  assert (Huser : forall s, isValid (validateUsername s) = false ->
                            List.hd [] (errors (validateUsername s)) <> []).
  { intros s. unfold validateUsername. cbn [isValid errors].
    destruct (isEmpty s); [intros _; discriminate|].
    apply first_error_nonempty; discriminate. }
  assert (Hpass : forall s, isValid (validatePassword s) = false ->
                            List.hd [] (errors (validatePassword s)) <> []).
  { intros s. unfold validatePassword. cbn [isValid errors].
    destruct (isEmpty s); [intros _; discriminate|].
    apply first_error_nonempty; discriminate. }
  assert (Hempty : isValid (validatePassword []) = false) by reflexivity.
  unfold registerForm_check, loginForm_check.
  destruct (isValid (validateUsername (trim usernameValue))) eqn:Hu; cbn [negb].
  2:{ repeat split; try discriminate; try (now intros (H & _)).
      intros text [H|H]; injection H as <-; now apply Huser. }
  destruct (isValid (validatePassword password)) eqn:Hp; cbn [negb].
  2:{ repeat split; try discriminate; try (now intros (_ & H & _)); try (now intros (_ & H)).
      intros text [H|H]; injection H as <-; now apply Hpass. }
  destruct (isEmpty confirmPassword) eqn:Hc.
  { destruct confirmPassword; [|discriminate Hc].
    repeat split; try discriminate.
    - intros (_ & _ & <-). congruence.
    - intros text [H|H]; [injection H as <-|]; discriminate. }
  destruct (JsString.eqb password confirmPassword) eqn:He; cbn [negb].
  - apply eqb_eq in He. subst confirmPassword. repeat split.
    intros text [H|H]; discriminate H.
  - repeat split; try discriminate.
    + intros (_ & _ & ->). rewrite (proj2 (eqb_eq password password) eq_refl) in He.
      discriminate He.
    + intros text [H|H]; [injection H as <-|]; discriminate.
Qed.

End Forms.

(** ** Surrounding white space *)

Section Trimming.

Import Utils.

Lemma trimStart_keeps (c : code_unit) (t : jsstring) :
  is_js_whitespace c = false -> trimStart (c :: t) = c :: t.
Proof. intros H. cbn [trimStart]. now rewrite H. Qed.

Lemma trimStart_cases (s : jsstring) :
  trimStart s = []
  \/ exists c t, trimStart s = c :: t /\ is_js_whitespace c = false.
Proof.
  induction s as [|c s IH]; [now left|]. cbn [trimStart].
  destruct (is_js_whitespace c) eqn:Hc; [exact IH|]. right. now exists c, s.
Qed.

Lemma trimStart_idempotent (s : jsstring) : trimStart (trimStart s) = trimStart s.
Proof.
  destruct (trimStart_cases s) as [->|(c & t & -> & Hc)]; [reflexivity|].
  now apply trimStart_keeps.
Qed.

Lemma trimStart_suffix (s : jsstring) : exists ws, s = ws ++ trimStart s.
Proof.
  induction s as [|c s [ws IH]]; [now exists []|]. cbn [trimStart].
  destruct (is_js_whitespace c); [|now exists []].
  exists (c :: ws). cbn [app]. now f_equal.
Qed.

(** [trim] leaves nothing to trim. *)
Lemma trim_idempotent (s : jsstring) : trim (trim s) = trim s.
Proof.
  unfold trim, trimEnd.
  set (a := trimStart s). set (b := trimStart (rev a)).
  assert (Hb : trimStart (rev b) = rev b).
  { destruct (trimStart_suffix (rev a)) as [ws Hws]. fold b in Hws.
    apply (f_equal (@rev code_unit)) in Hws. rewrite rev_involutive, rev_app_distr in Hws.
    destruct (rev b) as [|c t] eqn:Hrev; [reflexivity|].
    apply trimStart_keeps.
    destruct (trimStart_cases s) as [Hnil|(c' & t' & Hs & Hc')]; fold a in Hnil || fold a in Hs.
    - rewrite Hnil in Hws. discriminate Hws.
    - rewrite Hs in Hws. cbn [app] in Hws. now injection Hws as <- _. }
  rewrite Hb, rev_involutive. unfold b. now rewrite trimStart_idempotent.
Qed.

Lemma isEmpty_trim (s : jsstring) : isEmpty s = true -> isEmpty (trim s) = true.
Proof. now destruct s. Qed.

(** X27.  The validators of the name and of the message, and the submit
    handler of the name form, see their input only through [trim]: white
    space around it changes neither the verdict nor the messages nor what
    the handler does. *)
Theorem validators_ignore_outer_whitespace (S : jsstring) :
  validateRecipientName (trim S) = validateRecipientName S
  /\ validateMessage (trim S) = validateMessage S
  /\ forall cardId, CardViewer.nameForm_submit cardId (trim S)
                    = CardViewer.nameForm_submit cardId S.
Proof.
  assert (Hblank : isEmpty (trim S) || isEmpty (trim S)
                   = isEmpty S || isEmpty (trim S)).
  { destruct (isEmpty S) eqn:E; [now rewrite (isEmpty_trim S E)|].
    now rewrite orb_diag. }
  unfold validateRecipientName, validateMessage, CardViewer.nameForm_submit.
  rewrite !trim_idempotent, Hblank. repeat split.
Qed.

End Trimming.

(** ** Logging in and registering *)

Section LoginSession.

Import Browser AuthService Login.

Context {B : Type} (authenticate : B -> AuthRequest -> B * AuthFetchResult)
  (serve : B -> Request -> B * FetchResult).

Lemma session_keys_differ :
  str "authToken" <> str "userId" /\ str "authToken" <> str "username"
  /\ str "userId" <> str "username".
Proof. repeat split; discriminate. Qed.

(** The session three calls of [setItem] leave behind. *)
Lemma stored_session (w : World B) (token id name : jsstring) :
  let w' := set_item (str "username") name
              (set_item (str "userId") id (set_item (str "authToken") token w)) in
  exec serve getCurrentUser w' = (w', inr (mkCurrentUser (Some id) (Some name) (Some token)))
  /\ exec serve isAuthenticated w' = (w', inr true)
  /\ forall key, key ∉ [str "authToken"; str "userId"; str "username"] ->
       localStorage w' !! key = localStorage w !! key.
Proof.
  destruct session_keys_differ as (H1 & H2 & H3).
  intros w'. unfold getCurrentUser, isAuthenticated, mbind, Prog_bind.
  cbn [getItem bind exec]. subst w'. cbn [set_item localStorage].
  assert (Hid : <[str "username":=name]> (<[str "userId":=id]>
                  (<[str "authToken":=token]> (localStorage w))) !! str "userId" = Some id).
  { rewrite lookup_insert_ne by congruence. apply lookup_insert_eq. }
  assert (Hname : <[str "username":=name]> (<[str "userId":=id]>
                    (<[str "authToken":=token]> (localStorage w))) !! str "username"
                  = Some name) by apply lookup_insert_eq.
  assert (Htoken : <[str "username":=name]> (<[str "userId":=id]>
                     (<[str "authToken":=token]> (localStorage w))) !! str "authToken"
                   = Some token).
  { rewrite !lookup_insert_ne by congruence. apply lookup_insert_eq. }
  rewrite Hid, Hname, Htoken. repeat split.
  intros key Hkey. rewrite !not_elem_of_cons in Hkey. destruct Hkey as (K1 & K2 & K3 & _).
  now rewrite !lookup_insert_ne by congruence.
Qed.

(** The ways a call of [login] or [register] can go. *)
Ltac login_cases w :=
  unfold login, register;
  let r := lazymatch goal with |- context [authenticate (backend w) ?r] => r end in
  destruct (authenticate (backend w) r) as [b [e|response]];
  [ | destruct (auth_body response) as [[|detail token [user|]]|] eqn:Hbody;
      [ | destruct (auth_ok response) eqn:Hok
        | destruct (auth_ok response) eqn:Hok | ] ];
  cbn [negb fst snd].

(** X28.  [login] returns exactly when the server answers with a status
    from 200 to 299 and a JSON object that has a [user]; then the session
    is stored: [getCurrentUser] gives back the id, the user name and the
    token of the answer, as the strings [setItem] made of them,
    [isAuthenticated] says yes, and no other entry of [localStorage] has
    changed. *)
Theorem login_stores_session (username password : jsstring) (w : World B) :
  let answer :=
    (authenticate (backend w) (mkAuthRequest LoginEndpoint username password)).2 in
  let '(w', outcome) := login authenticate username password w in
  forall result,
    (outcome = inr result <->
     exists response detail,
       answer = AuthResponded response
       /\ auth_ok response = true
       /\ auth_body response
          = Some (AuthObject detail (result_token result) (Some (result_user result))))
    /\ (outcome = inr result ->
        exec serve getCurrentUser w'
        = (w', inr (mkCurrentUser
                      (Some (to_string (user_id (result_user result))))
                      (Some (to_string (user_name (result_user result))))
                      (Some (to_string (result_token result)))))
        /\ exec serve isAuthenticated w' = (w', inr true)
        /\ forall key, key ∉ [str "authToken"; str "userId"; str "username"] ->
             localStorage w' !! key = localStorage w !! key).
Proof.
  intros answer. subst answer. login_cases w; intros result;
    (split; [split; [intros H; try discriminate H
                    |intros (r & d & Hr & Hr_ok & Hr_body);
                     first [discriminate Hr | injection Hr as <-; congruence | idtac]]
            |intros H; try discriminate H]).
  - injection H as <-. cbn [result_token result_user]. eauto.
  - injection Hr as <-. rewrite Hbody in Hr_body. destruct result as [ru rt].
    cbn [result_token result_user] in Hr_body. now injection Hr_body as _ -> ->.
  - injection H as <-. cbn [result_token result_user].
    apply (stored_session (with_backend b w)).
Qed.

(** X29.  [register] stores the session in the same way, under the same
    condition on the answer of its own endpoint. *)
Theorem register_stores_session (username password : jsstring) (w : World B) :
  let answer :=
    (authenticate (backend w) (mkAuthRequest RegisterEndpoint username password)).2 in
  let '(w', outcome) := register authenticate username password w in
  forall result,
    (outcome = inr result <->
     exists response detail,
       answer = AuthResponded response
       /\ auth_ok response = true
       /\ auth_body response
          = Some (AuthObject detail (result_token result) (Some (result_user result))))
    /\ (outcome = inr result ->
        exec serve getCurrentUser w'
        = (w', inr (mkCurrentUser
                      (Some (to_string (user_id (result_user result))))
                      (Some (to_string (user_name (result_user result))))
                      (Some (to_string (result_token result)))))
        /\ exec serve isAuthenticated w' = (w', inr true)
        /\ forall key, key ∉ [str "authToken"; str "userId"; str "username"] ->
             localStorage w' !! key = localStorage w !! key).
Proof.
  intros answer. subst answer. login_cases w; intros result;
    (split; [split; [intros H; try discriminate H
                    |intros (r & d & Hr & Hr_ok & Hr_body);
                     first [discriminate Hr | injection Hr as <-; congruence | idtac]]
            |intros H; try discriminate H]).
  - injection H as <-. cbn [result_token result_user]. eauto.
  - injection Hr as <-. rewrite Hbody in Hr_body. destruct result as [ru rt].
    cbn [result_token result_user] in Hr_body. now injection Hr_body as _ -> ->.
  - injection H as <-. cbn [result_token result_user].
    apply (stored_session (with_backend b w)).
Qed.


End LoginSession.
